(** * Iterative constraint-solver steps (lib/Sema/CSStep.h) and the
      sequence algorithms [minElement] / [maxElement].

    The development embeds the step classes of [CSStep.h] as records and
    functions.  Objects reached through pointers ([Constraint *],
    [TypeVariableType *], [SolverStep *], [SolverScope *]) are identified
    by their address, a [nat].  Code that mutates the shared
    [ConstraintSystem] runs in a small state monad over a [World]: the
    constraint system together with a log of the externally visible
    operations, in the order in which they were performed.  A failed
    assertion, or a forced unwrap of [nil] in Swift, is [Trap]. *)

From Stdlib Require Import List Bool Arith ZArith Lia.
From Stdlib Require Import Sorted Permutation.
Import ListNotations.

Set Implicit Arguments.

(* ================================================================== *)
(** * Part I: the embedding                                            *)
(* ================================================================== *)

(** ** Abnormal termination *)

Inductive Exec (A : Type) : Type :=
| Ret (a : A)
| Trap.

Arguments Ret {A} a.
Arguments Trap {A}.

(** ** Pointers *)

Definition TypeVariableType := nat.
Definition Constraint := nat.
Definition ValueDecl := nat.
Definition StepPtr := nat.
Definition SolverScope := nat.
Definition SolutionsRef := nat.

(** [ConstraintList::iterator]: a position in the intrusive list, either
    at a node or at [end()]. *)
Inductive iterator : Type :=
| At (c : Constraint)
| End.

(** ** What the header takes from [Types.h], [Constraint.h] and
       [ConstraintSystem.h] *)

(** A type is a type variable or something else; [getAs<TypeVariableType>]
    succeeds on the former only. *)
Inductive SwiftType : Type :=
| TypeVar (tv : TypeVariableType)
| Nominal (n : nat).

Definition getAs_TypeVariableType (t : SwiftType) : option TypeVariableType :=
  match t with
  | TypeVar tv => Some tv
  | Nominal _ => None
  end.

Definition isEqual (t : SwiftType) (repr : TypeVariableType) : bool :=
  match t with
  | TypeVar tv => Nat.eqb tv repr
  | Nominal _ => false
  end.

(** [OverloadChoice]: [isDecl()] holds for the declaration kinds, and
    then [getDecl()] is the declaration. *)
Inductive OverloadChoice : Type :=
| DeclChoice (d : ValueDecl)
| OtherChoice (kind : nat).

Definition isDecl (c : OverloadChoice) : bool :=
  match c with
  | DeclChoice _ => true
  | OtherChoice _ => false
  end.

Inductive ConstraintKind : Type :=
| Disjunction_kind
| BindOverload_kind
| Other_kind.

(** The immutable part of a constraint object. *)
Record ConstraintInfo : Type := {
  getKind : ConstraintKind;
  getNestedConstraints : list Constraint;
  getFirstType : SwiftType;
  getOverloadChoice : OverloadChoice
}.

(** One node of the resolved-overload history; the list is kept most
    recent first, [Previous] being the tail. *)
Record ResolvedOverloadSetListItem : Type := {
  BoundType : SwiftType;
  Choice : OverloadChoice
}.

(** [ConstraintSystem::SolutionKind]. *)
Inductive SolutionKind : Type :=
| Solved
| Error
| Unsolved.

(** The types the header only passes around. *)
Class SolverTypes : Type := {
  Score : Type;
  Solution : Type;
  ExprWeights : Type
}.

(** The part of the constraint system the steps read and write. *)
Record ConstraintSystem `{SolverTypes} : Type := {
  TypeVariables : list TypeVariableType;
  InactiveConstraints : list Constraint;
  (** constraints registered in the constraint graph [CG] *)
  CG : list Constraint;
  (** constraints whose disabled bit is set *)
  DisabledSet : list Constraint;
  resolvedOverloadSets : list ResolvedOverloadSetListItem;
  CurrentScore : Score;
  (** [solverState->PartialSolutionScope] *)
  PartialSolutionScope : option SolverScope;
  (** [solverState->NumDisjunctions] *)
  NumDisjunctions : nat;
  (** [solverState->ExprWeights] *)
  solverState_ExprWeights : ExprWeights;
  retainAllSolutions : bool
}.

(** The collaborators defined outside the header: the destructor of
    [ConstraintSystem::SolverScope], [ConstraintSystem::filterSolutions],
    the constraint objects and the union-find of type variables. *)
Class SolverExternals `{SolverTypes} : Type := {
  SolverScope_delete : SolverScope -> ConstraintSystem -> ConstraintSystem;
  CS_filterSolutions : list Solution -> ExprWeights -> bool -> list Solution;
  constraintInfo : Constraint -> ConstraintInfo;
  getRepresentative : TypeVariableType -> option TypeVariableType
}.

(** ** The log and the state monad *)

Inductive Event : Type :=
| EvScopeDelete (s : SolverScope)
| EvFilterSolutions (minimize : bool)
| EvListErase (c : Constraint)
| EvListInsert (pos : iterator) (c : Constraint)
| EvGraphRemove (c : Constraint)
| EvGraphAdd (c : Constraint)
| EvSetEnabled (c : Constraint)
| EvSetDisabled (c : Constraint).

Record World `{SolverTypes} : Type := {
  cs : ConstraintSystem;
  events : list Event
}.

Definition M `{SolverTypes} (A : Type) : Type := World -> Exec (A * World).

Definition ret `{SolverTypes} {A : Type} (a : A) : M A :=
  fun w => Ret (a, w).

Definition bind `{SolverTypes} {A B : Type} (m : M A) (k : A -> M B) : M B :=
  fun w =>
    match m w with
    | Ret (a, w') => k a w'
    | Trap => Trap
    end.

Definition trap `{SolverTypes} {A : Type} : M A := fun _ => Trap.

Definition assert `{SolverTypes} (b : bool) : M unit :=
  if b then ret tt else trap.

Definition getCS `{SolverTypes} : M ConstraintSystem :=
  fun w => Ret (cs w, w).

(** Perform one logged operation on the constraint system. *)
Definition perform `{SolverTypes} (e : Event)
    (f : ConstraintSystem -> ConstraintSystem) : M unit :=
  fun w => Ret (tt, {| cs := f (cs w); events := events w ++ [e] |}).

Declare Scope step_scope.
Delimit Scope step_scope with step.
Notation "x <- m ;; k" := (bind m (fun x => k))
  (at level 61, m at next level, right associativity) : step_scope.
Notation "m ;;; k" := (bind m (fun _ => k))
  (at level 61, right associativity) : step_scope.

Fixpoint forEach `{SolverTypes} {A : Type} (f : A -> M unit) (l : list A)
    : M unit :=
  match l with
  | [] => ret tt
  | x :: rest => bind (f x) (fun _ => forEach f rest)
  end.

(** ** Operations of the intrusive [ConstraintList] *)

(** [erase(c)]: unlink [c] and return the position of the node that
    followed it.  The code only erases a constraint that is in the list;
    on any other the model leaves the list alone and answers [End]. *)
Fixpoint ilist_erase (c : Constraint) (l : list Constraint)
    : list Constraint * iterator :=
  match l with
  | [] => ([], End)
  | x :: rest =>
      if Nat.eqb x c
      then (rest, match rest with [] => End | y :: _ => At y end)
      else let (rest', it) := ilist_erase c rest in (x :: rest', it)
  end.

(** [insert(pos, c)]: link [c] in front of [pos].  A position that is
    not in the list, which the code never passes, counts as [End]. *)
Fixpoint ilist_insert (pos : iterator) (c : Constraint) (l : list Constraint)
    : list Constraint :=
  match l with
  | [] => [c]
  | x :: rest =>
      match pos with
      | At y => if Nat.eqb x y then c :: x :: rest
                else x :: ilist_insert pos c rest
      | End => x :: ilist_insert pos c rest
      end
  end.

Definition remove_all (c : Constraint) (l : list Constraint) : list Constraint :=
  filter (fun x => negb (Nat.eqb x c)) l.

Definition mem (c : Constraint) (l : list Constraint) : bool :=
  existsb (Nat.eqb c) l.

(** ** Field updates of the constraint system *)

Section Updates.
Context `{SolverTypes}.

Definition with_TypeVariables (v : list TypeVariableType)
    (s : ConstraintSystem) : ConstraintSystem :=
  {| TypeVariables := v;
     InactiveConstraints := InactiveConstraints s;
     CG := CG s;
     DisabledSet := DisabledSet s;
     resolvedOverloadSets := resolvedOverloadSets s;
     CurrentScore := CurrentScore s;
     PartialSolutionScope := PartialSolutionScope s;
     NumDisjunctions := NumDisjunctions s;
     solverState_ExprWeights := solverState_ExprWeights s;
     retainAllSolutions := retainAllSolutions s |}.

Definition with_InactiveConstraints (v : list Constraint)
    (s : ConstraintSystem) : ConstraintSystem :=
  {| TypeVariables := TypeVariables s;
     InactiveConstraints := v;
     CG := CG s;
     DisabledSet := DisabledSet s;
     resolvedOverloadSets := resolvedOverloadSets s;
     CurrentScore := CurrentScore s;
     PartialSolutionScope := PartialSolutionScope s;
     NumDisjunctions := NumDisjunctions s;
     solverState_ExprWeights := solverState_ExprWeights s;
     retainAllSolutions := retainAllSolutions s |}.

Definition with_CG (v : list Constraint)
    (s : ConstraintSystem) : ConstraintSystem :=
  {| TypeVariables := TypeVariables s;
     InactiveConstraints := InactiveConstraints s;
     CG := v;
     DisabledSet := DisabledSet s;
     resolvedOverloadSets := resolvedOverloadSets s;
     CurrentScore := CurrentScore s;
     PartialSolutionScope := PartialSolutionScope s;
     NumDisjunctions := NumDisjunctions s;
     solverState_ExprWeights := solverState_ExprWeights s;
     retainAllSolutions := retainAllSolutions s |}.

Definition with_DisabledSet (v : list Constraint)
    (s : ConstraintSystem) : ConstraintSystem :=
  {| TypeVariables := TypeVariables s;
     InactiveConstraints := InactiveConstraints s;
     CG := CG s;
     DisabledSet := v;
     resolvedOverloadSets := resolvedOverloadSets s;
     CurrentScore := CurrentScore s;
     PartialSolutionScope := PartialSolutionScope s;
     NumDisjunctions := NumDisjunctions s;
     solverState_ExprWeights := solverState_ExprWeights s;
     retainAllSolutions := retainAllSolutions s |}.

Definition with_PartialSolutionScope (v : option SolverScope)
    (s : ConstraintSystem) : ConstraintSystem :=
  {| TypeVariables := TypeVariables s;
     InactiveConstraints := InactiveConstraints s;
     CG := CG s;
     DisabledSet := DisabledSet s;
     resolvedOverloadSets := resolvedOverloadSets s;
     CurrentScore := CurrentScore s;
     PartialSolutionScope := v;
     NumDisjunctions := NumDisjunctions s;
     solverState_ExprWeights := solverState_ExprWeights s;
     retainAllSolutions := retainAllSolutions s |}.

Definition with_NumDisjunctions (v : nat)
    (s : ConstraintSystem) : ConstraintSystem :=
  {| TypeVariables := TypeVariables s;
     InactiveConstraints := InactiveConstraints s;
     CG := CG s;
     DisabledSet := DisabledSet s;
     resolvedOverloadSets := resolvedOverloadSets s;
     CurrentScore := CurrentScore s;
     PartialSolutionScope := PartialSolutionScope s;
     NumDisjunctions := v;
     solverState_ExprWeights := solverState_ExprWeights s;
     retainAllSolutions := retainAllSolutions s |}.

(** An assignment to a member of the constraint system that the log
    does not record. *)
Definition assign (f : ConstraintSystem -> ConstraintSystem) : M unit :=
  fun w => Ret (tt, {| cs := f (cs w); events := events w |}).

(** [Constraint::setEnabled] and [Constraint::setDisabled]. *)
Definition setEnabled (c : Constraint) : M unit :=
  perform (EvSetEnabled c)
          (fun s => with_DisabledSet (remove_all c (DisabledSet s)) s).

Definition setDisabled (c : Constraint) : M unit :=
  perform (EvSetDisabled c)
          (fun s => with_DisabledSet (c :: DisabledSet s) s).

Definition isDisabled (c : Constraint) (s : ConstraintSystem) : bool :=
  mem c (DisabledSet s).
End Updates.

(** ** [enum class StepState] *)

Inductive StepState : Type :=
| Setup
| Ready
| Running
| Suspended
| Done.

(** The one path the comment in [transitionTo] calls reasonable:
    [setup -> ready -> running [-> suspended]* -> done], a suspended
    step going back to running when it is resumed. *)
Definition onPath (from to : StepState) : bool :=
  match from, to with
  | Setup, Ready => true
  | Ready, Running => true
  | Running, Suspended => true
  | Suspended, Running => true
  | Running, Done => true
  | _, _ => false
  end.

(** ** [struct StepResult] *)

Module StepResult.

Record t : Type := {
  ResultKind : SolutionKind;
  NextSteps : list StepPtr
}.

(** The three private constructors. *)
Definition of_kind (kind : SolutionKind) : t :=
  {| ResultKind := kind; NextSteps := [] |}.

Definition of_step (kind : SolutionKind) (step : StepPtr) : t :=
  {| ResultKind := kind; NextSteps := [] ++ [step] |}.

Definition of_followup (kind : SolutionKind) (followup : list StepPtr) : t :=
  {| ResultKind := kind; NextSteps := followup |}.

Definition getKind (r : t) : SolutionKind := ResultKind r.

(** [workList.append(NextSteps.begin(), NextSteps.end())]: the back of
    the vector is the right end of the list. *)
Definition transfer (r : t) (workList : list StepPtr) : list StepPtr :=
  workList ++ NextSteps r.

Definition success : t := of_kind Solved.
Definition failure : t := of_kind Error.
Definition unsolved (singleStep : StepPtr) : t := of_step Unsolved singleStep.
Definition unsolved_list (followup : list StepPtr) : t :=
  of_followup Unsolved followup.

(** The results the factories can build. *)
Inductive FromFactory : t -> Prop :=
| FromSuccess : FromFactory success
| FromFailure : FromFactory failure
| FromUnsolved : forall singleStep, FromFactory (unsolved singleStep)
| FromUnsolvedList : forall followup, FromFactory (unsolved_list followup).

End StepResult.

(** ** [class SolverStep] *)

Module SolverStep.

Record t : Type := {
  State : StepState;
  Solutions : SolutionsRef
}.

Definition init (solutions : SolutionsRef) : t :=
  {| State := Setup; Solutions := solutions |}.

Definition getState (self : t) : StepState := State self.

(** [State = newState;] and nothing else. *)
Definition transitionTo (self : t) (newState : StepState) : t :=
  {| State := newState; Solutions := Solutions self |}.

Definition setup (self : t) : t := transitionTo self Ready.

Definition done (self : t) (isSuccess : bool) : t * StepResult.t :=
  let self := transitionTo self Done in
  (self, if isSuccess then StepResult.success else StepResult.failure).

Definition suspend (self : t) (followup : StepPtr) : t * StepResult.t :=
  let self := transitionTo self Suspended in
  (self, StepResult.unsolved followup).

Definition suspend_list (self : t) (followup : list StepPtr)
    : t * StepResult.t :=
  let self := transitionTo self Suspended in
  (self, StepResult.unsolved_list followup).

Section WithSystem.
Context `{SolverExternals}.
Local Open Scope step_scope.

Definition erase (constraint : Constraint) : M iterator :=
  perform (EvGraphRemove constraint)
          (fun s => with_CG (remove_all constraint (CG s)) s) ;;;
  s <- getCS ;;
  perform (EvListErase constraint)
          (with_InactiveConstraints
             (fst (ilist_erase constraint (InactiveConstraints s)))) ;;;
  ret (snd (ilist_erase constraint (InactiveConstraints s))).

Definition restore (pos : iterator) (constraint : Constraint) : M unit :=
  perform (EvListInsert pos constraint)
          (fun s => with_InactiveConstraints
                      (ilist_insert pos constraint (InactiveConstraints s)) s) ;;;
  perform (EvGraphAdd constraint)
          (fun s => with_CG (constraint :: CG s) s).

Definition getResolvedOverloads : M (list ResolvedOverloadSetListItem) :=
  s <- getCS ;; ret (resolvedOverloadSets s).

Definition getCurrentScore : M Score :=
  s <- getCS ;; ret (CurrentScore s).

Definition filterSolutions (solutions : list Solution) (minimize : bool)
    : M (list Solution) :=
  s <- getCS ;;
  if negb (retainAllSolutions s)
  then perform (EvFilterSolutions minimize) (fun s => s) ;;;
       ret (CS_filterSolutions solutions (solverState_ExprWeights s) minimize)
  else ret solutions.
End WithSystem.

End SolverStep.

(** ** The work list of the driver *)

Module Driver.

(** Modelled from the spec: the driver of the work list is not in the
    header.  "The driver holds a LIFO work list of steps.  Loop: while
    non-empty, pop the top step."  The top of the vector is its back,
    where [transfer] appends. *)
Fixpoint pop_back (workList : list StepPtr) : option (list StepPtr * StepPtr) :=
  match workList with
  | [] => None
  | x :: rest =>
      match pop_back rest with
      | None => Some ([], x)
      | Some (rest', top) => Some (x :: rest', top)
      end
  end.

(** The order in which the driver reaches the steps now on the work
    list, when each of them finishes without follow-ups. *)
Fixpoint drain (fuel : nat) (workList : list StepPtr) : list StepPtr :=
  match fuel with
  | 0 => []
  | S fuel' =>
      match pop_back workList with
      | None => []
      | Some (rest, top) => top :: drain fuel' rest
      end
  end.

Definition executionOrder (workList : list StepPtr) : list StepPtr :=
  drain (length workList) workList.

End Driver.

(** ** [class ComponentStep] *)

(** A member the constructor leaves without a value. *)
Inductive Member (A : Type) : Type :=
| Uninitialized
| Holds (a : A).

Arguments Uninitialized {A}.
Arguments Holds {A} a.

Module ComponentStep.

(** *** [class ComponentStep::Scope] *)
Module Scope.

Record t : Type := {
  SolverScope_ : SolverScope;
  TypeVars : list TypeVariableType;
  Constraints : list Constraint;
  PrevPartialScope : option SolverScope
}.

Section WithSystem.
Context `{SolverExternals}.
Local Open Scope step_scope.

(** [~Scope()], statement by statement. *)
Definition destroy (self : t) : M unit :=
  perform (EvScopeDelete (SolverScope_ self))
          (SolverScope_delete (SolverScope_ self)) ;;;
  assign (with_PartialSolutionScope (PrevPartialScope self)) ;;;
  assign (with_TypeVariables (TypeVars self)) ;;;
  assign (fun s => with_InactiveConstraints
                     (InactiveConstraints s ++ Constraints self) s).

End WithSystem.



End Scope.

Section WithTypes.
Context `{SolverTypes}.

Record t : Type := {
  base : SolverStep.t;
  Index : nat;
  IsSingleComponent : Member bool;
  OriginalScore : Score;
  ComponentScope : option Scope.t;
  TypeVars : list TypeVariableType;
  Constraints : list Constraint;
  OrphanedConstraint : Member (option Constraint)
}.

(** The constructor: its initializer list names the base, [Index] and
    [OriginalScore]; the other members get their default, if they have
    one. *)
Definition construct (cs : ConstraintSystem) (index : nat)
    (singleComponent : bool) (solutions : SolutionsRef) : t :=
  {| base := SolverStep.init solutions;
     Index := index;
     IsSingleComponent := Uninitialized;
     OriginalScore := CurrentScore cs;
     ComponentScope := None;
     TypeVars := [];
     Constraints := [];
     OrphanedConstraint := Uninitialized |}.

Definition create (cs : ConstraintSystem) (index : nat)
    (singleComponent : bool) (solutions : SolutionsRef) : t :=
  construct cs index singleComponent solutions.


End WithTypes.

End ComponentStep.

(** ** [class DisjunctionStep] *)

Module DisjunctionStep.

(** [DisjunctionChoice]: a position in the disjunction and the nested
    constraint found there. *)
Record DisjunctionChoice : Type := {
  choiceIndex : nat;
  choiceConstraint : Constraint
}.

(** [DisjunctionChoiceProducer]: the disjunction and a cursor. *)
Record DisjunctionChoiceProducer : Type := {
  producerDisjunction : Constraint;
  producerIndex : nat
}.

Section WithSystem.
Context `{SolverExternals}.
Local Open Scope step_scope.

Record t : Type := {
  base : SolverStep.t;
  Disjunction : Constraint;
  DisabledChoices : list Constraint;
  AfterDisjunction : iterator;
  Producer : DisjunctionChoiceProducer;
  BestNonGenericScore : option Score;
  LastSolvedChoice : option (Constraint * Score);
  ActiveChoice : option (SolverScope * DisjunctionChoice)
}.

Definition with_DisabledChoices (v : list Constraint) (self : t) : t :=
  {| base := base self;
     Disjunction := Disjunction self;
     DisabledChoices := v;
     AfterDisjunction := AfterDisjunction self;
     Producer := Producer self;
     BestNonGenericScore := BestNonGenericScore self;
     LastSolvedChoice := LastSolvedChoice self;
     ActiveChoice := ActiveChoice self |}.

(** [DisabledChoices.push_back(constraint)]. *)
Definition push_DisabledChoice (self : t) (constraint : Constraint) : t :=
  with_DisabledChoices (DisabledChoices self ++ [constraint]) self.

(** The inner loop of [pruneOverloadSet]: disable every nested
    constraint whose choice is a declaration other than the
    representative's. *)
Fixpoint disableOthers (self : t) (representative : ValueDecl)
    (nested : list Constraint) : M t :=
  match nested with
  | [] => ret self
  | constraint :: rest =>
      match getOverloadChoice (constraintInfo constraint) with
      | OtherChoice _ => disableOthers self representative rest
      | DeclChoice d =>
          if Nat.eqb d representative
          then disableOthers self representative rest
          else setDisabled constraint ;;;
               disableOthers (push_DisabledChoice self constraint)
                             representative rest
      end
  end.

(** The outer loop: walk the history from the most recent entry, skip
    the entries bound to another type, and stop at the first one bound
    to [repr]. *)
Fixpoint scanResolved (self : t) (disjunction : Constraint)
    (repr : TypeVariableType) (resolved : list ResolvedOverloadSetListItem)
    : M t :=
  match resolved with
  | [] => ret self
  | item :: previous =>
      if negb (isEqual (BoundType item) repr)
      then scanResolved self disjunction repr previous
      else match Choice item with
           | OtherChoice _ => ret self
           | DeclChoice representative =>
               disableOthers self representative
                 (getNestedConstraints (constraintInfo disjunction))
           end
  end.

Definition pruneOverloadSet (self : t) (disjunction : Constraint) : M t :=
  match getNestedConstraints (constraintInfo disjunction) with
  | [] => trap
  | choice :: _ =>
      match getAs_TypeVariableType (getFirstType (constraintInfo choice)) with
      | None => ret self
      | Some typeVar =>
          match getRepresentative typeVar with
          | None => ret self
          | Some repr =>
              if Nat.eqb repr typeVar then ret self
              else resolved <- SolverStep.getResolvedOverloads ;;
                   scanResolved self disjunction repr resolved
          end
      end
  end.

Definition isDisjunction (k : ConstraintKind) : bool :=
  match k with
  | Disjunction_kind => true
  | _ => false
  end.

(** The constructor: the member initializers in declaration order, then
    the body. *)
Definition create (disjunction : Constraint) (solutions : SolutionsRef)
    : M t :=
  after <- SolverStep.erase disjunction ;;
  let self :=
    {| base := SolverStep.init solutions;
       Disjunction := disjunction;
       DisabledChoices := [];
       AfterDisjunction := after;
       Producer := {| producerDisjunction := disjunction; producerIndex := 0 |};
       BestNonGenericScore := None;
       LastSolvedChoice := None;
       ActiveChoice := None |} in
  assert (isDisjunction (getKind (constraintInfo disjunction))) ;;;
  self <- pruneOverloadSet self disjunction ;;
  assign (fun s => with_NumDisjunctions (S (NumDisjunctions s)) s) ;;;
  ret self.

(** [ActiveChoice.reset()]: destroying the pair deletes the scope it
    owns. *)
Definition resetActiveChoice (self : t) : M unit :=
  match ActiveChoice self with
  | Some (scope, _) => perform (EvScopeDelete scope) (SolverScope_delete scope)
  | None => ret tt
  end.

(** The constraint system after [ActiveChoice.reset()], and what the
    reset adds to the log. *)
Definition afterReset (self : t) (s : ConstraintSystem) : ConstraintSystem :=
  match ActiveChoice self with
  | Some (scope, _) => SolverScope_delete scope s
  | None => s
  end.

Definition resetEvents (self : t) : list Event :=
  match ActiveChoice self with
  | Some (scope, _) => [EvScopeDelete scope]
  | None => []
  end.

(** [~DisjunctionStep()]. *)
Definition destroy (self : t) : M unit :=
  resetActiveChoice self ;;;
  SolverStep.restore (AfterDisjunction self) (Disjunction self) ;;;
  forEach setEnabled (DisabledChoices self).

(** *** What [pruneOverloadSet] disables, read off the history *)

(** The entry that decides: the most recent one whose bound type is the
    representative. *)
Definition decidingEntry (repr : TypeVariableType)
    (resolved : list ResolvedOverloadSetListItem)
    : option ResolvedOverloadSetListItem :=
  find (fun item => isEqual (BoundType item) repr) resolved.

(** The nested constraint names a declaration other than [rd]. *)
Definition namesOtherDecl (rd : ValueDecl) (c : Constraint) : bool :=
  match getOverloadChoice (constraintInfo c) with
  | DeclChoice d => negb (Nat.eqb d rd)
  | OtherChoice _ => false
  end.

Definition pruned (disjunction : Constraint) (s : ConstraintSystem)
    : list Constraint :=
  match getNestedConstraints (constraintInfo disjunction) with
  | [] => []
  | choice :: _ =>
      match getAs_TypeVariableType (getFirstType (constraintInfo choice)) with
      | None => []
      | Some typeVar =>
          match getRepresentative typeVar with
          | None => []
          | Some repr =>
              if Nat.eqb repr typeVar then []
              else match decidingEntry repr (resolvedOverloadSets s) with
                   | Some item =>
                       match Choice item with
                       | DeclChoice rd =>
                           filter (namesOtherDecl rd)
                             (getNestedConstraints (constraintInfo disjunction))
                       | OtherChoice _ => []
                       end
                   | None => []
                   end
          end
      end
  end.

End WithSystem.

(** *** [getBestScore] *)

Section BestScore.
Context `{SolverTypes}.
(** [Solution::getFixedScore] and [operator<] on scores. *)
Variable getFixedScore : Solution -> Score.
Variable Score_lt : Score -> Score -> bool.

(** [solutions[i]]: the vector asserts that [i] is below its size. *)
Definition vector_at (solutions : list Solution) (i : nat) : Exec Solution :=
  match nth_error solutions i with
  | Some solution => Ret solution
  | None => Trap
  end.

(** The loop [for (i = 1, n = size; i != n; ++i)] over the positions
    still to visit. *)
Fixpoint bestScore_loop (positions : list nat) (solutions : list Solution)
    (bestScore : Score) : Exec Score :=
  match positions with
  | [] => Ret bestScore
  | i :: rest =>
      match vector_at solutions i with
      | Trap => Trap
      | Ret solution =>
          let score := getFixedScore solution in
          bestScore_loop rest solutions
            (if Score_lt score bestScore then score else bestScore)
      end
  end.

Definition getBestScore (solutions : list Solution) : Exec (option Score) :=
  match solutions with
  | [] => Trap
  | front :: _ =>
      let bestScore := getFixedScore front in
      if Nat.eqb (length solutions) 1 then Ret (Some bestScore)
      else match bestScore_loop (seq 1 (length solutions - 1))
                                solutions bestScore with
           | Trap => Trap
           | Ret bestScore => Ret (Some bestScore)
           end
  end.

End BestScore.

End DisjunctionStep.

(** ** [class TypeVariableStep] *)

Module TypeVariableStep.

(** A candidate binding, as far as the step looks at it: the type and
    whether it comes from a literal default. *)
Record Binding : Type := {
  bindingType : nat;
  fromLiteral : bool
}.

(** The members the header declares.  [Producer] is the lazy producer,
    kept as the candidates it has not handed out yet, in priority order;
    [ActiveChoice] is the scope of the binding being attempted, kept
    with that binding. *)
Record t : Type := {
  base : SolverStep.t;
  TypeVar : TypeVariableType;
  Producer : list Binding;
  InitialBindings : list Binding;
  AnySolved : bool;
  SawFirstLiteralConstraint : bool;
  ActiveChoice : option Binding
}.

Definition construct (typeVar : TypeVariableType) (bindings : list Binding)
    (solutions : SolutionsRef) : t :=
  {| base := SolverStep.init solutions;
     TypeVar := typeVar;
     Producer := bindings;
     InitialBindings := bindings;
     AnySolved := false;
     SawFirstLiteralConstraint := false;
     ActiveChoice := None |}.

(** What one call of [take] tells the driver: the step is suspended on
    the attempt of a binding, or it is done. *)
Inductive Outcome : Type :=
| Attempt (b : Binding)
| Finished (isSuccess : bool).

(** Modelled from the spec: [TypeVariableStep::take] is declared in the
    header and defined elsewhere.  Section 4.4 of the spec, with the
    default configuration:
    1. if [activeChoice] is set, [anySolved ||= !prevFailed] and reset
       [activeChoice];
    2. stop if [anySolved] and a candidate from a literal default has
       been attempted; stop if the producer is exhausted;
    3. pull the next candidate [b];
    4. open a scope, store it in [activeChoice], apply [b], and set
       [sawFirstLiteral] if [b] is a literal default;
    5. suspend;
    6. on stop, [Done(anySolved ? Solved : Error)].
    The first check of step 2 runs after step 1 has reset
    [activeChoice]: that a literal default has been attempted is what
    step 4 records in [sawFirstLiteral], the flag which the header keeps
    "to stop attempting other bindings", so the check reads the flag.
    The ordering guarantee of the section, "once a non-literal attempt
    has produced at least one solution, no literal-default attempts are
    tried", and scenario S4 of section 8 put the same exit in front of
    the attempt: a literal default pulled when [anySolved] holds is not
    attempted, and the step stops. *)
Definition take (prevFailed : bool) (self : t) : t * Outcome :=
  let anySolved :=
    match ActiveChoice self with
    | Some _ => AnySolved self || negb prevFailed
    | None => AnySolved self
    end in
  let stopped :=
    {| base := fst (SolverStep.done (base self) anySolved);
       TypeVar := TypeVar self;
       Producer := Producer self;
       InitialBindings := InitialBindings self;
       AnySolved := anySolved;
       SawFirstLiteralConstraint := SawFirstLiteralConstraint self;
       ActiveChoice := None |} in
  if anySolved && SawFirstLiteralConstraint self
  then (stopped, Finished anySolved)
  else
    match Producer self with
    | [] => (stopped, Finished anySolved)
    | b :: rest =>
        if anySolved && fromLiteral b then (stopped, Finished anySolved)
        else
          ({| base := SolverStep.transitionTo (base self) Suspended;
              TypeVar := TypeVar self;
              Producer := rest;
              InitialBindings := InitialBindings self;
              AnySolved := anySolved;
              SawFirstLiteralConstraint :=
                SawFirstLiteralConstraint self || fromLiteral b;
              ActiveChoice := Some b |},
           Attempt b)
    end.

(** Modelled from the spec: the driver runs the follow-up of every
    attempt to its end and calls the step again, [prevFailed] telling
    whether that follow-up failed.  [solves b] says whether the
    sub-problem under binding [b] has a solution.  The result is the
    list of the bindings attempted, in the order of the attempts, and
    the disposition of the step. *)
Fixpoint run (solves : Binding -> bool) (fuel : nat) (prevFailed : bool)
    (self : t) : option (list Binding * bool) :=
  match fuel with
  | 0 => None
  | S fuel' =>
      match take prevFailed self with
      | (self', Attempt b) =>
          match run solves fuel' (negb (solves b)) self' with
          | Some (attempted, isSuccess) => Some (b :: attempted, isSuccess)
          | None => None
          end
      | (_, Finished isSuccess) => Some ([], isSuccess)
      end
  end.


End TypeVariableStep.

(** ** [minElement] and [maxElement] *)

Module Algorithm.

Section Elements.
Variable Element : Type.
(** [<] of [Comparable]; [a > b] is [b < a]. *)
Variable lt : Element -> Element -> bool.

(** A generator is the list of the elements it has yet to produce;
    [next()] hands out the first and advances. *)
Definition next (g : list Element) : option Element * list Element :=
  match g with
  | [] => (None, [])
  | e :: rest => (Some e, rest)
  end.

(** The forced unwrap [x!]. *)
Definition unwrap {A : Type} (x : option A) : Exec A :=
  match x with
  | Some a => Ret a
  | None => Trap
  end.

Definition minElement (range : list Element) : Exec Element :=
  let g := range in
  let (first, g) := next g in
  match unwrap first with
  | Trap => Trap
  | Ret result =>
      Ret (fold_left (fun result e => if lt e result then e else result)
                     g result)
  end.

Definition maxElement (range : list Element) : Exec Element :=
  let g := range in
  let (first, g) := next g in
  match unwrap first with
  | Trap => Trap
  | Ret result =>
      Ret (fold_left (fun result e => if lt result e then e else result)
                     g result)
  end.

End Elements.

(** *** Searching and comparing sequences *)

(** [c[i]] on a collection indexed from 0: a position outside it traps. *)
Definition subscript {A : Type} (c : list A) (i : nat) : Exec A :=
  match nth_error c i with
  | Some a => Ret a
  | None => Trap
  end.

(** [indices(c)]: the positions of [c], in order. *)
Definition indices {A : Type} (c : list A) : list nat := seq 0 (length c).

Section Equatable.
Variable Element : Type.
(** [==] of [Equatable]; [a != b] is [!(a == b)]. *)
Variable eq : Element -> Element -> bool.

(** The loop of [find] over the positions still to visit. *)
Fixpoint find_loop (positions : list nat) (domain : list Element)
    (value : Element) : Exec (option nat) :=
  match positions with
  | [] => Ret None
  | i :: rest =>
      match subscript domain i with
      | Trap => Trap
      | Ret e => if eq e value then Ret (Some i)
                 else find_loop rest domain value
      end
  end.

Definition find (domain : list Element) (value : Element) : Exec (option nat) :=
  find_loop (indices domain) domain value.

(** [startsWith]: [s1] is the generator [g1]; the loop runs over [s0]. *)
Fixpoint startsWith (s0 s1 : list Element) : bool :=
  match s0 with
  | [] => match s1 with
          | _ :: _ => false
          | [] => true
          end
  | e0 :: rest0 =>
      match s1 with
      | [] => true
      | e1 :: g1 => if negb (eq e0 e1) then false else startsWith rest0 g1
      end
  end.

(** The logic value of what [next()] returns. *)
Definition hasNext (g : list Element) : bool :=
  match g with
  | [] => false
  | _ :: _ => true
  end.

(** [equal] on [Equatable] elements. *)
Fixpoint equal (g1 g2 : list Element) : bool :=
  match g1, g2 with
  | e1 :: g1', e2 :: g2' =>
      if negb (eq e1 e2) then false else equal g1' g2'
  | _, _ => Bool.eqb (negb (hasNext g1)) (negb (hasNext g2))
  end.

(** [equal] with a predicate in the place of [==]. *)
Fixpoint equal_pred (g1 g2 : list Element)
    (pred : Element -> Element -> bool) : bool :=
  match g1, g2 with
  | e1 :: g1', e2 :: g2' =>
      if negb (pred e1 e2) then false else equal_pred g1' g2' pred
  | _, _ => Bool.eqb (negb (hasNext g1)) (negb (hasNext g2))
  end.

(** [contains] with a predicate, and with an element. *)
Fixpoint contains (seq : list Element) (predicate : Element -> bool) : bool :=
  match seq with
  | [] => false
  | a :: rest => if predicate a then true else contains rest predicate
  end.

Definition contains_element (seq : list Element) (x : Element) : bool :=
  contains seq (fun a => eq a x).

End Equatable.

Section Ordered.
Variable Element : Type.
(** [<] of [Comparable], or the [less] a caller passes. *)
Variable less : Element -> Element -> bool.

(** [lexicographicalCompare]; its two overloads differ only in where
    the comparison comes from. *)
Fixpoint lexicographicalCompare (g1 g2 : list Element) : bool :=
  match g1 with
  | e1 :: g1' =>
      match g2 with
      | e2 :: g2' =>
          if less e1 e2 then true
          else if less e2 e1 then false
          else lexicographicalCompare g1' g2'
      | [] => false
      end
  | [] => hasNext g2
  end.

(** [min] and [max] of two values. *)
Definition min (x y : Element) : Element :=
  let r := x in
  if less y x then y else r.

Definition max (x y : Element) : Element :=
  let r := y in
  if less y x then x else r.

(** [min] and [max] of three values and more; [t >= r] is [!(t < r)]. *)
Definition min_rest (x y z : Element) (rest : list Element) : Element :=
  let r := x in
  let r := if less y x then y else r in
  let r := if less z r then z else r in
  fold_left (fun r t => if less t r then t else r) rest r.

Definition max_rest (x y z : Element) (rest : list Element) : Element :=
  let r := y in
  let r := if less y x then x else r in
  let r := if less r z then z else r in
  fold_left (fun r t => if negb (less t r) then t else r) rest r.

End Ordered.

(** *** [EnumerateGenerator] *)

Section Enumerate.
Variable Element : Type.
(** [Int.max]; adding one to it traps. *)
Variable Int_max : Z.

Record EnumerateGenerator : Type := {
  base : list Element;
  count : Z
}.

Definition EnumerateGenerator_init (base : list Element) : EnumerateGenerator :=
  {| base := base; count := 0 |}.

Definition EnumerateGenerator_next (self : EnumerateGenerator)
    : Exec (option (Z * Element) * EnumerateGenerator) :=
  let (b, base') := next (base self) in
  match b with
  | None => Ret (None, {| base := base'; count := count self |})
  | Some element =>
      if Z.eqb (count self) Int_max then Trap
      else Ret (Some (count self, element),
                {| base := base'; count := (count self + 1)%Z |})
  end.

Definition enumerate (seq : list Element) : EnumerateGenerator :=
  EnumerateGenerator_init seq.

(** A [for] loop over the generator that keeps what it is handed:
    [None] when the fuel runs out before the generator does. *)
Fixpoint collect (fuel : nat) (g : EnumerateGenerator)
    : option (Exec (list (Z * Element))) :=
  match fuel with
  | 0 => None
  | S fuel' =>
      match EnumerateGenerator_next g with
      | Trap => Some Trap
      | Ret (None, _) => Some (Ret [])
      | Ret (Some item, g') =>
          match collect fuel' g' with
          | Some (Ret items) => Some (Ret (item :: items))
          | other => other
          end
      end
  end.

End Enumerate.

(** *** Sorting *)

Section Sorting.
Variable Element : Type.
Variable less : Element -> Element -> bool.

(** [Range]: a start and an end position. *)
Record Range : Type := {
  startIndex : nat;
  endIndex : nat
}.

(** The logic value of a range: it is not empty. *)
Definition nonEmpty (range : Range) : bool :=
  negb (Nat.eqb (startIndex range) (endIndex range)).

(** [elements[i] = v]: a position outside the collection traps. *)
Definition replace_at (elements : list Element) (i : nat) (v : Element)
    : list Element :=
  firstn i elements ++ v :: skipn (S i) elements.

Definition assign_at (elements : list Element) (i : nat) (v : Element)
    : Exec (list Element) :=
  if Nat.ltb i (length elements) then Ret (replace_at elements i v)
  else Trap.

(** The [do ... while --i != start] loop of [insertionSort]: it moves
    the elements greater than [x] one place up and returns the place
    left for [x].  There is no position before the first, so
    [elements[i.pred()]] traps at [i = 0]. *)
Fixpoint insertion_shift (elements : list Element) (x : Element)
    (i start : nat) : Exec (list Element * nat) :=
  match i with
  | 0 => Trap
  | S p =>
      match subscript elements p with
      | Trap => Trap
      | Ret predecessor =>
          if negb (less x predecessor) then Ret (elements, i)
          else match assign_at elements i predecessor with
               | Trap => Trap
               | Ret elements' =>
                   if negb (Nat.eqb p start)
                   then insertion_shift elements' x p start
                   else Ret (elements', p)
               end
      end
  end.

(** The [while (++sortedEnd != range.endIndex)] loop; [None] when the
    fuel runs out first. *)
Fixpoint insertion_loop (fuel : nat) (elements : list Element)
    (sortedEnd : nat) (range : Range) : option (Exec (list Element)) :=
  match fuel with
  | 0 => None
  | S fuel' =>
      let sortedEnd := S sortedEnd in
      if Nat.eqb sortedEnd (endIndex range) then Some (Ret elements)
      else
        match subscript elements sortedEnd with
        | Trap => Some Trap
        | Ret x =>
            match insertion_shift elements x sortedEnd (startIndex range) with
            | Trap => Some Trap
            | Ret (elements', i) =>
                if negb (Nat.eqb i sortedEnd)
                then match assign_at elements' i x with
                     | Trap => Some Trap
                     | Ret elements'' =>
                         insertion_loop fuel' elements'' sortedEnd range
                     end
                else insertion_loop fuel' elements' sortedEnd range
            end
        end
  end.

Definition insertionSort (fuel : nat) (elements : list Element)
    (range : Range) : option (Exec (list Element)) :=
  if nonEmpty range
  then insertion_loop fuel elements (startIndex range) range
  else Some (Ret elements).

(** *** [partition] and [quickSort] *)

(** [elements[i]] and [elements[i] = v] at an [Int] position: a
    negative one is outside every collection. *)
Definition subscriptZ (elements : list Element) (i : Z) : Exec Element :=
  if (i <? 0)%Z then Trap else subscript elements (Z.to_nat i).

Definition assign_atZ (elements : list Element) (i : Z) (v : Element)
    : Exec (list Element) :=
  if (i <? 0)%Z then Trap else assign_at elements (Z.to_nat i) v.

(** [swap(&elements[i], &elements[j])]: both are read, then both are
    written. *)
Definition swap_at (elements : list Element) (i j : Z)
    : Exec (list Element) :=
  match subscriptZ elements i with
  | Trap => Trap
  | Ret a =>
      match subscriptZ elements j with
      | Trap => Trap
      | Ret b =>
          match assign_atZ elements i b with
          | Trap => Trap
          | Ret elements' => assign_atZ elements' j a
          end
      end
  end.

(** [while less(elements[i], pivot) { i++; if i.distanceTo(j) < 0 { break } }] *)
Fixpoint scan_up (fuel : nat) (elements : list Element) (pivot : Element)
    (i j : Z) : option (Exec Z) :=
  match fuel with
  | 0 => None
  | S fuel' =>
      match subscriptZ elements i with
      | Trap => Some Trap
      | Ret e =>
          if less e pivot
          then let i := (i + 1)%Z in
               if (j - i <? 0)%Z then Some (Ret i)
               else scan_up fuel' elements pivot i j
          else Some (Ret i)
      end
  end.

(** [while less(pivot, elements[j]) { j-- }] *)
Fixpoint scan_down (fuel : nat) (elements : list Element) (pivot : Element)
    (j : Z) : option (Exec Z) :=
  match fuel with
  | 0 => None
  | S fuel' =>
      match subscriptZ elements j with
      | Trap => Some Trap
      | Ret e =>
          if less pivot e
          then scan_down fuel' elements pivot (j - 1)%Z
          else Some (Ret j)
      end
  end.

(** [while i.distanceTo(j) >= 0 { ... }]: the result is the collection
    and the final [i]. *)
Fixpoint partition_loop (fuel : nat) (elements : list Element)
    (pivot : Element) (i j : Z) : option (Exec (list Element * Z)) :=
  match fuel with
  | 0 => None
  | S fuel' =>
      if (j - i >=? 0)%Z then
        match scan_up fuel' elements pivot i j with
        | None => None
        | Some Trap => Some Trap
        | Some (Ret i) =>
            match scan_down fuel' elements pivot j with
            | None => None
            | Some Trap => Some Trap
            | Some (Ret j) =>
                if (j - i >=? 0)%Z then
                  match swap_at elements i j with
                  | Trap => Some Trap
                  | Ret elements' =>
                      partition_loop fuel' elements' pivot
                                     (i + 1)%Z (j - 1)%Z
                  end
                else partition_loop fuel' elements pivot i j
            end
        end
      else Some (Ret (elements, i))
  end.

(** The body both versions of [partition] share. *)
Definition partition_body (fuel : nat) (elements : list Element)
    (range : Range) : option (Exec (list Element * nat)) :=
  let i := Z.of_nat (startIndex range) in
  let j := (Z.of_nat (endIndex range) - 1)%Z in
  match subscript elements (startIndex range) with
  | Trap => Some Trap
  | Ret pivot =>
      let i := (i + 1)%Z in
      match partition_loop fuel elements pivot i j with
      | None => None
      | Some Trap => Some Trap
      | Some (Ret (elements', i)) =>
          match swap_at elements' (i - 1)%Z (Z.of_nat (startIndex range)) with
          | Trap => Some Trap
          | Ret elements'' => Some (Ret (elements'', Z.to_nat (i - 1)))
          end
      end
  end.

(** [partition] with a [less]: an empty range fails the precondition. *)
Definition partition (fuel : nat) (elements : list Element) (range : Range)
    : option (Exec (list Element * nat)) :=
  if negb (Nat.eqb (startIndex range) (endIndex range))
  then partition_body fuel elements range
  else Some Trap.

(** [partition] on [Comparable] elements has no precondition. *)
Definition partition_comparable (fuel : nat) (elements : list Element)
    (range : Range) : option (Exec (list Element * nat)) :=
  partition_body fuel elements range.

(** [_quickSort]; [count(range)] is the distance from start to end. *)
Fixpoint _quickSort (fuel : nat) (elements : list Element) (range : Range)
    : option (Exec (list Element)) :=
  match fuel with
  | 0 => None
  | S fuel' =>
      let cnt := (Z.of_nat (endIndex range) - Z.of_nat (startIndex range))%Z in
      if (cnt <? 20)%Z then insertionSort fuel' elements range
      else
        match partition fuel' elements range with
        | None => None
        | Some Trap => Some Trap
        | Some (Ret (elements, part_idx)) =>
            match _quickSort fuel' elements
                    {| startIndex := startIndex range;
                       endIndex := part_idx |} with
            | None => None
            | Some Trap => Some Trap
            | Some (Ret elements) =>
                _quickSort fuel' elements
                  {| startIndex := S part_idx;
                     endIndex := endIndex range |}
            end
        end
  end.

Definition quickSort (fuel : nat) (elements : list Element) (range : Range)
    : option (Exec (list Element)) :=
  _quickSort fuel elements range.

(** [sort] of a whole collection and [sorted]. *)
Definition sort (fuel : nat) (collection : list Element)
    : option (Exec (list Element)) :=
  quickSort fuel collection
    {| startIndex := 0; endIndex := length collection |}.

Definition sorted (fuel : nat) (source : list Element)
    : option (Exec (list Element)) :=
  let result := source in
  sort fuel result.

(** The collection with the elements at [a] and [b] exchanged. *)
Definition exchanged (l : list Element) (a b : nat) (x y : Element)
    : list Element :=
  replace_at (replace_at l a y) b x.

(** What the main loop of [partition] keeps true of the collection [l]
    it works on, [l0] being the collection it started from: nothing
    outside the range has moved, the pivot is at the start, the places
    passed by [i] hold nothing above the pivot and those passed by [j]
    nothing below it. *)
Definition partitioned (l0 l : list Element) (pivot : Element)
    (first last i j : nat) : Prop :=
  length l = length l0
  /\ Permutation l0 l
  /\ (forall k, k < first \/ last <= k -> nth_error l k = nth_error l0 k)
  /\ nth_error l first = Some pivot
  /\ last <= length l
  /\ first < i <= last
  /\ (forall k e, first < k < i -> nth_error l k = Some e ->
                  less pivot e = false)
  /\ (forall k e, j < k < last -> nth_error l k = Some e ->
                  less e pivot = false).

End Sorting.

(** *** Splitting *)

Section Splitting.
Variable Element : Type.
Variable isSeparator : Element -> bool.

(** [seq[i..<j]]; the code only slices within the sequence. *)
Definition slice (seq : list Element) (i j : nat) : list Element :=
  firstn (j - i) (skipn i seq).

(** The variables of [split]. *)
Record SplitState : Type := {
  result : list (list Element);
  splitStart : option nat;
  splits : Z
}.

(** The loop of [split] over the positions still to visit; reaching
    [maxSplit] leaves it. *)
Fixpoint split_loop (positions : list nat) (seq : list Element)
    (maxSplit : Z) (allowEmptySlices : bool) (st : SplitState)
    : Exec SplitState :=
  match positions with
  | [] => Ret st
  | j :: rest =>
      match subscript seq j with
      | Trap => Trap
      | Ret e =>
          if isSeparator e then
            match splitStart st with
            | Some i =>
                let result := result st ++ [slice seq i j] in
                let splits := (splits st + 1)%Z in
                if (splits >=? maxSplit)%Z
                then Ret {| result := result;
                            splitStart := Some (S j);
                            splits := splits |}
                else split_loop rest seq maxSplit allowEmptySlices
                       {| result := result;
                          splitStart := if negb allowEmptySlices then None
                                        else Some (S j);
                          splits := splits |}
            | None => split_loop rest seq maxSplit allowEmptySlices st
            end
          else
            match splitStart st with
            | None =>
                split_loop rest seq maxSplit allowEmptySlices
                  {| result := result st;
                     splitStart := Some j;
                     splits := splits st |}
            | Some _ => split_loop rest seq maxSplit allowEmptySlices st
            end
      end
  end.

Definition split (seq : list Element) (maxSplit : Z)
    (allowEmptySlices : bool) : Exec (list (list Element)) :=
  let st :=
    {| result := [];
       splitStart := if allowEmptySlices then Some 0 else None;
       splits := 0 |} in
  match split_loop (indices seq) seq maxSplit allowEmptySlices st with
  | Trap => Trap
  | Ret st =>
      match splitStart st with
      | Some i => Ret (result st ++ [slice seq i (length seq)])
      | None => Ret (result st)
      end
  end.

(** Slices put back together, a separator between each two. *)
Fixpoint join (slices : list (list Element)) (separators : list Element)
    : list Element :=
  match slices with
  | [] => []
  | s :: rest =>
      match separators with
      | [] => s
      | p :: separators' => s ++ p :: join rest separators'
      end
  end.


(** [split] as a function of the elements alone: [current] is the slice
    being collected, if any, and [splits] the number of splits made. *)
Fixpoint slices (allowEmptySlices : bool) (maxSplit : Z) (splits : Z)
    (current : option (list Element)) (l : list Element)
    : list (list Element) :=
  match l with
  | [] => match current with Some c => [c] | None => [] end
  | e :: rest =>
      if isSeparator e then
        match current with
        | Some c =>
            if (splits + 1 >=? maxSplit)%Z then [c; rest]
            else c :: slices allowEmptySlices maxSplit (splits + 1)
                        (if allowEmptySlices then Some [] else None) rest
        | None => slices allowEmptySlices maxSplit splits None rest
        end
      else
        slices allowEmptySlices maxSplit splits
          (Some (match current with Some c => c ++ [e] | None => [e] end))
          rest
  end.

Definition nonEmptySlice (s : list Element) : bool :=
  match s with [] => false | _ :: _ => true end.

(** What [split] returns from the state its loop ends in. *)
Definition split_outcome (seq : list Element) (st : SplitState)
    : list (list Element) :=
  match splitStart st with
  | Some i => result st ++ [slice seq i (length seq)]
  | None => result st
  end.

End Splitting.

End Algorithm.

(** ** A small concrete system for the examples *)

Module Example.

Definition types : SolverTypes :=
  {| Score := nat; Solution := nat; ExprWeights := unit |}.

#[local] Existing Instance types.

(** Disjunction [100] over the overloads [101] (declaration [7]) and
    [102] (declaration [8]), both on type variable [1]; every other
    constraint is a plain one. *)
Definition info (c : Constraint) : ConstraintInfo :=
  match c with
  | 100 => {| getKind := Disjunction_kind;
              getNestedConstraints := [101; 102];
              getFirstType := Nominal 0;
              getOverloadChoice := OtherChoice 0 |}
  | 101 => {| getKind := BindOverload_kind;
              getNestedConstraints := [];
              getFirstType := TypeVar 1;
              getOverloadChoice := DeclChoice 7 |}
  | 102 => {| getKind := BindOverload_kind;
              getNestedConstraints := [];
              getFirstType := TypeVar 1;
              getOverloadChoice := DeclChoice 8 |}
  | _ => {| getKind := Other_kind;
            getNestedConstraints := [];
            getFirstType := Nominal 0;
            getOverloadChoice := OtherChoice 0 |}
  end.

(** Type variable [1] has been merged into [2]; the others stand for
    themselves. *)
Definition representative (tv : TypeVariableType) : option TypeVariableType :=
  match tv with
  | 1 => Some 2
  | _ => Some tv
  end.

(** Deleting a solver scope under which nothing was changed leaves the
    system as it is; the filter keeps the first solution. *)
Definition externals : @SolverExternals types :=
  {| SolverScope_delete := fun _ s => s;
     CS_filterSolutions := fun solutions _ _ => firstn 1 solutions;
     constraintInfo := info;
     getRepresentative := representative |}.

Definition system (inactive : list Constraint)
    (resolved : list ResolvedOverloadSetListItem) (retain : bool)
    : @ConstraintSystem types :=
  {| TypeVariables := [1; 2];
     InactiveConstraints := inactive;
     CG := inactive;
     DisabledSet := [];
     resolvedOverloadSets := resolved;
     CurrentScore := 0;
     PartialSolutionScope := None;
     NumDisjunctions := 0;
     solverState_ExprWeights := tt;
     retainAllSolutions := retain |}.

Definition world (inactive : list Constraint)
    (resolved : list ResolvedOverloadSetListItem) (retain : bool)
    : @World types :=
  {| cs := system inactive resolved retain; events := [] |}.



(** A disjunction step on [100], erased from in front of [5], that
    disabled [102] and is attempting [101] under scope [9]. *)
Definition step : @DisjunctionStep.t types :=
  {| DisjunctionStep.base := SolverStep.init 0;
     DisjunctionStep.Disjunction := 100;
     DisjunctionStep.DisabledChoices := [102];
     DisjunctionStep.AfterDisjunction := At 5;
     DisjunctionStep.Producer :=
       {| DisjunctionStep.producerDisjunction := 100;
          DisjunctionStep.producerIndex := 1 |};
     DisjunctionStep.BestNonGenericScore := None;
     DisjunctionStep.LastSolvedChoice := None;
     DisjunctionStep.ActiveChoice :=
       Some (9, {| DisjunctionStep.choiceIndex := 0;
                   DisjunctionStep.choiceConstraint := 101 |}) |}.



(** The history of a system in which the overload bound to type
    variable [2] was resolved to declaration [7]. *)
Definition resolvedTo7 : list ResolvedOverloadSetListItem :=
  [{| BoundType := TypeVar 2; Choice := DeclChoice 7 |}].

(** A history with two entries bound to type variable [2]: the more
    recent one is not a declaration, the older one is declaration [7]. *)
Definition resolvedTwice : list ResolvedOverloadSetListItem :=
  [{| BoundType := TypeVar 2; Choice := OtherChoice 0 |};
   {| BoundType := TypeVar 2; Choice := DeclChoice 7 |}].

End Example.

(* ================================================================== *)
(** * Part II: properties                                              *)
(* ================================================================== *)

(** ** Step states *)

Lemma transitionTo_state (self : SolverStep.t) (newState : StepState) :
  SolverStep.getState (SolverStep.transitionTo self newState) = newState.
Proof. reflexivity. Qed.

(** C1.  [transitionTo] checks nothing: it stores whatever state it is
    given.  A step still in [Setup] that calls [done] is put in [Done],
    and one that calls [suspend] is put in [Suspended], although neither
    transition lies on the path
    [Setup -> Ready -> Running -> (Suspended -> Running)* -> Done]. *)
Theorem transitionTo_accepts_off_path :
  (forall self newState,
     SolverStep.getState (SolverStep.transitionTo self newState) = newState)
  /\ onPath Setup Done = false
  /\ SolverStep.getState (fst (SolverStep.done (SolverStep.init 0) true)) = Done
  /\ onPath Setup Suspended = false
  /\ SolverStep.getState (fst (SolverStep.suspend (SolverStep.init 0) 1))
     = Suspended.
Proof.
  split; [exact transitionTo_state|].
  repeat split.
Qed.

(** ** Step results *)

Lemma done_FromFactory (self : SolverStep.t) (isSuccess : bool) :
  StepResult.FromFactory (snd (SolverStep.done self isSuccess)).
Proof. destruct isSuccess; simpl; constructor. Qed.

Lemma suspend_FromFactory (self : SolverStep.t) (followup : StepPtr) :
  StepResult.FromFactory (snd (SolverStep.suspend self followup)).
Proof. simpl; constructor. Qed.

Lemma suspend_list_FromFactory (self : SolverStep.t) (followup : list StepPtr) :
  StepResult.FromFactory (snd (SolverStep.suspend_list self followup)).
Proof. simpl; constructor. Qed.

(** C7.  A result built by [success], [failure] or one of the two
    [unsolved] factories has follow-up steps only if its kind is
    [Unsolved]; a [Solved] or [Error] result has none. *)
Theorem followups_only_when_unsolved (r : StepResult.t) :
  StepResult.FromFactory r ->
  (StepResult.NextSteps r <> [] -> StepResult.getKind r = Unsolved)
  /\ (StepResult.getKind r = Solved \/ StepResult.getKind r = Error ->
      StepResult.NextSteps r = []).
Proof.
  intros Hr. inversion Hr; subst; simpl; split; intros Hk;
    try reflexivity; try congruence; destruct Hk; discriminate.
Qed.

Lemma followups_only_when_unsolved_witness :
  (StepResult.NextSteps (StepResult.unsolved 3) <> [] ->
   StepResult.getKind (StepResult.unsolved 3) = Unsolved)
  /\ (StepResult.getKind (StepResult.unsolved 3) = Solved
      \/ StepResult.getKind (StepResult.unsolved 3) = Error ->
      StepResult.NextSteps (StepResult.unsolved 3) = []).
Proof.
  apply (@followups_only_when_unsolved (StepResult.unsolved 3)).
  constructor.
Defined.

(** ** The work list *)

Lemma pop_back_snoc (l : list StepPtr) (x : StepPtr) :
  Driver.pop_back (l ++ [x]) = Some (l, x).
Proof.
  induction l as [|y l IH]; simpl; [reflexivity|].
  rewrite IH. reflexivity.
Qed.

Lemma drain_rev (l : list StepPtr) :
  forall fuel, length l <= fuel -> Driver.drain fuel l = rev l.
Proof.
  induction l as [|x l IH] using rev_ind; intros fuel Hf.
  - destruct fuel; reflexivity.
  - rewrite length_app in Hf. simpl in Hf.
    destruct fuel as [|fuel]; [lia|].
    simpl. rewrite pop_back_snoc, rev_app_distr. simpl.
    f_equal. apply IH. lia.
Qed.

Lemma executionOrder_rev (l : list StepPtr) :
  Driver.executionOrder l = rev l.
Proof. apply drain_rev. reflexivity. Qed.

(** C2, as the code has it.  [transfer] appends the follow-ups to the
    work list in their stored order, so the driver, which pops from the
    back, runs them in the reverse of that order: the follow-up stored
    last runs first, and all of them run before the steps that were
    already on the list. *)
Theorem transfer_runs_followups_in_reverse (r : StepResult.t)
    (workList : list StepPtr) :
  StepResult.transfer r workList = workList ++ StepResult.NextSteps r
  /\ Driver.executionOrder (StepResult.transfer r workList)
     = rev (StepResult.NextSteps r) ++ Driver.executionOrder workList.
Proof.
  split; [reflexivity|].
  unfold StepResult.transfer.
  rewrite !executionOrder_rev. apply rev_app_distr.
Qed.

(** C2, the claim refuted: with follow-ups [[1; 2]] the step run first
    is [2], not the follow-up at index 0. *)
Lemma transfer_index0_not_first :
  Driver.executionOrder
    (StepResult.transfer (StepResult.unsolved_list [1; 2]) [0]) = [2; 1; 0]
  /\ hd_error (Driver.executionOrder
                 (StepResult.transfer (StepResult.unsolved_list [1; 2]) [0]))
     <> nth_error (StepResult.NextSteps (StepResult.unsolved_list [1; 2])) 0.
Proof. split; [reflexivity|]. simpl. discriminate. Qed.

(** ** Filtering *)

(** C8.  [filterSolutions] calls the filter of the constraint system
    exactly when [retainAllSolutions] is off, and then hands back what
    the filter returns; when it is on, no call is made and the solutions
    come back as they were.  The constraint system is not touched. *)
Theorem filterSolutions_iff_not_retained `{SolverExternals}
    (solutions : list Solution) (minimize : bool) (w : World) :
  exists solutions' w',
    SolverStep.filterSolutions solutions minimize w = Ret (solutions', w')
    /\ cs w' = cs w
    /\ events w' =
       events w ++ (if retainAllSolutions (cs w) then []
                    else [EvFilterSolutions minimize])
    /\ solutions' =
       (if retainAllSolutions (cs w) then solutions
        else CS_filterSolutions solutions (solverState_ExprWeights (cs w))
                                minimize).
Proof.
  unfold SolverStep.filterSolutions, bind, getCS.
  destruct (retainAllSolutions (cs w)) eqn:Hretain; simpl.
  - exists solutions, w. rewrite app_nil_r. auto.
  - eexists _, _. split; [reflexivity|]. simpl. auto.
Qed.

(** ** Component steps *)

(** C9.  The constructor of [ComponentStep] never looks at
    [singleComponent]: the step [create] builds is the same whichever
    value is passed, and its [IsSingleComponent] member is left without
    a value. *)
Theorem create_ignores_singleComponent `{SolverTypes}
    (cs : ConstraintSystem) (index : nat) (single single' : bool)
    (solutions : SolutionsRef) :
  ComponentStep.create cs index single solutions
  = ComponentStep.create cs index single' solutions
  /\ ComponentStep.IsSingleComponent
       (ComponentStep.create cs index single solutions) = Uninitialized
  /\ ComponentStep.Index (ComponentStep.create cs index single solutions)
     = index
  /\ ComponentStep.OriginalScore
       (ComponentStep.create cs index single solutions) = CurrentScore cs.
Proof. repeat split. Qed.


Lemma mem_true_iff (c : Constraint) (l : list Constraint) :
  mem c l = true <-> In c l.
Proof.
  unfold mem. rewrite existsb_exists. split.
  - intros (x & Hx & Heq). apply Nat.eqb_eq in Heq. subst. exact Hx.
  - intros Hin. exists c. split; [exact Hin | apply Nat.eqb_refl].
Qed.







(** ** [minElement] and [maxElement] *)

Section MinMax.
Variable Element : Type.
Variable lt : Element -> Element -> bool.
Hypothesis lt_irrefl : forall a, lt a a = false.
Hypothesis lt_trans :
  forall a b c, lt a b = true -> lt b c = true -> lt a c = true.

Let keepMin (result e : Element) : Element := if lt e result then e else result.
Let keepMax (result e : Element) : Element := if lt result e then e else result.

Lemma fold_keepMin (rest : list Element) :
  forall first seen,
    In first seen ->
    (forall x, In x seen -> lt x first = false) ->
    let m := fold_left keepMin rest first in
    In m (seen ++ rest)
    /\ forall x, In x (seen ++ rest) -> lt x m = false.
Proof.
  induction rest as [|e rest IH]; intros first seen Hin Hlow; simpl.
  - rewrite app_nil_r. auto.
  - replace (seen ++ e :: rest) with ((seen ++ [e]) ++ rest)
      by (rewrite <- app_assoc; reflexivity).
    apply IH; unfold keepMin.
    + destruct (lt e first); apply in_or_app; simpl; auto.
    + intros x Hx. apply in_app_or in Hx.
      destruct (lt e first) eqn:He.
      * destruct Hx as [Hx | [<- | []]]; [|apply lt_irrefl].
        destruct (lt x e) eqn:Hxe; [|reflexivity].
        rewrite <- (Hlow x Hx). symmetry. eapply lt_trans; eauto.
      * destruct Hx as [Hx | [<- | []]]; auto.
Qed.

Lemma fold_keepMax (rest : list Element) :
  forall first seen,
    In first seen ->
    (forall x, In x seen -> lt first x = false) ->
    let m := fold_left keepMax rest first in
    In m (seen ++ rest)
    /\ forall x, In x (seen ++ rest) -> lt m x = false.
Proof.
  induction rest as [|e rest IH]; intros first seen Hin Hhigh; simpl.
  - rewrite app_nil_r. auto.
  - replace (seen ++ e :: rest) with ((seen ++ [e]) ++ rest)
      by (rewrite <- app_assoc; reflexivity).
    apply IH; unfold keepMax.
    + destruct (lt first e); apply in_or_app; simpl; auto.
    + intros x Hx. apply in_app_or in Hx.
      destruct (lt first e) eqn:He.
      * destruct Hx as [Hx | [<- | []]]; [|apply lt_irrefl].
        destruct (lt e x) eqn:Hex; [|reflexivity].
        rewrite <- (Hhigh x Hx). symmetry. eapply lt_trans; eauto.
      * destruct Hx as [Hx | [<- | []]]; auto.
Qed.

(** C10.  On a sequence without elements the forced unwrap of the first
    [next()] fails and both functions trap.  On any other sequence
    neither traps: [minElement] returns an element of the sequence that
    no element is below, and [maxElement] one that no element is
    above. *)
Theorem minElement_maxElement_partial :
  Algorithm.minElement lt [] = Trap
  /\ Algorithm.maxElement lt [] = Trap
  /\ forall range, range <> [] ->
       exists least greatest,
         Algorithm.minElement lt range = Ret least
         /\ In least range
         /\ (forall x, In x range -> lt x least = false)
         /\ Algorithm.maxElement lt range = Ret greatest
         /\ In greatest range
         /\ (forall x, In x range -> lt greatest x = false).
Proof.
  split; [reflexivity|]. split; [reflexivity|].
  intros [|first rest] Hne; [congruence|].
  destruct (@fold_keepMin rest first [first]) as [Hmin1 Hmin2];
    [left; reflexivity | intros x [<- | []]; apply lt_irrefl |].
  destruct (@fold_keepMax rest first [first]) as [Hmax1 Hmax2];
    [left; reflexivity | intros x [<- | []]; apply lt_irrefl |].
  exists (fold_left keepMin rest first), (fold_left keepMax rest first).
  simpl. auto 10.
Qed.

End MinMax.

Lemma Z_ltb_trans (a b c : Z) :
  Z.ltb a b = true -> Z.ltb b c = true -> Z.ltb a c = true.
Proof. rewrite !Z.ltb_lt. lia. Qed.

Lemma minElement_maxElement_partial_witness :
  exists least greatest,
    Algorithm.minElement Z.ltb [3; 1; 2]%Z = Ret least
    /\ In least [3; 1; 2]%Z
    /\ (forall x, In x [3; 1; 2]%Z -> Z.ltb x least = false)
    /\ Algorithm.maxElement Z.ltb [3; 1; 2]%Z = Ret greatest
    /\ In greatest [3; 1; 2]%Z
    /\ (forall x, In x [3; 1; 2]%Z -> Z.ltb greatest x = false).
Proof.
  destruct (@minElement_maxElement_partial Z Z.ltb Z.ltb_irrefl Z_ltb_trans)
    as (_ & _ & Hrange).
  apply (Hrange [3; 1; 2]%Z). discriminate.
Defined.

(** ** The intrusive constraint list *)

Lemma ilist_erase_successor (c : Constraint) (l : list Constraint) :
  forall y, snd (ilist_erase c l) = At y -> In y l.
Proof.
  induction l as [|x rest IH]; simpl; intros y Hy; [discriminate|].
  destruct (Nat.eqb x c).
  - destruct rest as [|z rest]; simpl in Hy; [discriminate|].
    injection Hy as ->. right. left. reflexivity.
  - destruct (ilist_erase c rest) as [rest' it]. simpl in *. auto.
Qed.

(** Inserting an erased constraint at the position [erase] returned
    gives the list back. *)
Lemma ilist_insert_erase (c : Constraint) (l : list Constraint) :
  NoDup l -> In c l ->
  ilist_insert (snd (ilist_erase c l)) c (fst (ilist_erase c l)) = l.
Proof.
  induction l as [|x rest IH]; intros Hnd Hin; [destruct Hin|].
  simpl. destruct (Nat.eqb_spec x c) as [-> | Hxc].
  - destruct rest as [|y rest]; simpl; [reflexivity|].
    rewrite Nat.eqb_refl. reflexivity.
  - inversion Hnd as [|? ? Hx Hrest]; subst.
    destruct Hin as [Heq | Hin]; [contradiction|].
    specialize (IH Hrest Hin).
    pose proof (ilist_erase_successor c rest) as Hsucc.
    destruct (ilist_erase c rest) as [rest' it]. simpl in *.
    destruct it as [y|].
    + destruct (Nat.eqb_spec x y) as [-> | _].
      * exfalso. apply Hx. apply Hsucc. reflexivity.
      * rewrite IH. reflexivity.
    + rewrite IH. reflexivity.
Qed.

Lemma mem_app (c : Constraint) (l1 l2 : list Constraint) :
  mem c (l1 ++ l2) = mem c l1 || mem c l2.
Proof. apply existsb_app. Qed.

Lemma mem_rev (c : Constraint) (l : list Constraint) :
  mem c (rev l) = mem c l.
Proof.
  induction l as [|x l IH]; simpl; [reflexivity|].
  rewrite mem_app, IH. simpl. rewrite orb_false_r. apply orb_comm.
Qed.

Lemma mem_remove_all (c x : Constraint) (l : list Constraint) :
  mem c (remove_all x l) = mem c l && negb (Nat.eqb c x).
Proof.
  induction l as [|y l IH]; simpl; [reflexivity|].
  destruct (Nat.eqb_spec y x) as [-> | Hyx]; simpl.
  - rewrite IH. destruct (Nat.eqb_spec c x); simpl.
    + rewrite !andb_false_r. reflexivity.
    + rewrite !andb_true_r. reflexivity.
  - rewrite IH. destruct (Nat.eqb_spec c y) as [-> | Hcy]; simpl.
    + destruct (Nat.eqb_spec y x); [contradiction | reflexivity].
    + reflexivity.
Qed.

Lemma mem_enable_all (c : Constraint) (enabled : list Constraint) :
  forall disabled,
    mem c (fold_left (fun d x => remove_all x d) enabled disabled)
    = mem c disabled && negb (mem c enabled).
Proof.
  induction enabled as [|x enabled IH]; intros disabled; simpl.
  - rewrite andb_true_r. reflexivity.
  - rewrite IH, mem_remove_all, negb_orb, andb_assoc. reflexivity.
Qed.

(** ** Disjunction steps: destruction *)

Section DisjunctionDestroy.
Context `{SolverExternals}.

Lemma forEach_setEnabled_run (choices : list Constraint) :
  forall w : World,
    forEach setEnabled choices w =
    Ret (tt,
         {| cs := with_DisabledSet
                    (fold_left (fun d x => remove_all x d) choices
                               (DisabledSet (cs w)))
                    (cs w);
            events := events w ++ map EvSetEnabled choices |}).
Proof.
  induction choices as [|c choices IH]; intros [[] ev]; simpl.
  - unfold ret. rewrite app_nil_r. reflexivity.
  - unfold bind. simpl. rewrite IH. simpl.
    rewrite <- app_assoc. reflexivity.
Qed.

Lemma resetActiveChoice_run (self : DisjunctionStep.t) (w : World) :
  DisjunctionStep.resetActiveChoice self w =
  Ret (tt, {| cs := DisjunctionStep.afterReset self (cs w);
              events := events w ++ DisjunctionStep.resetEvents self |}).
Proof.
  unfold DisjunctionStep.resetActiveChoice, DisjunctionStep.afterReset,
    DisjunctionStep.resetEvents.
  destruct (DisjunctionStep.ActiveChoice self) as [[scope choice]|].
  - reflexivity.
  - destruct w. unfold ret. simpl. rewrite app_nil_r. reflexivity.
Qed.

Lemma destroy_run (self : DisjunctionStep.t) (w : World) :
  DisjunctionStep.destroy self w =
  Ret (tt,
       let reset := DisjunctionStep.afterReset self (cs w) in
       let restored :=
         with_CG (DisjunctionStep.Disjunction self :: CG reset)
           (with_InactiveConstraints
              (ilist_insert (DisjunctionStep.AfterDisjunction self)
                            (DisjunctionStep.Disjunction self)
                            (InactiveConstraints reset))
              reset) in
       {| cs := with_DisabledSet
                  (fold_left (fun d x => remove_all x d)
                             (DisjunctionStep.DisabledChoices self)
                             (DisabledSet reset))
                  restored;
          events :=
            ((events w ++ DisjunctionStep.resetEvents self)
             ++ [EvListInsert (DisjunctionStep.AfterDisjunction self)
                              (DisjunctionStep.Disjunction self)]
             ++ [EvGraphAdd (DisjunctionStep.Disjunction self)])
            ++ map EvSetEnabled (DisjunctionStep.DisabledChoices self) |}).
Proof.
  unfold DisjunctionStep.destroy, bind.
  rewrite resetActiveChoice_run.
  unfold SolverStep.restore, bind, perform. simpl.
  rewrite forEach_setEnabled_run. simpl.
  rewrite <- !app_assoc. reflexivity.
Qed.

(** C4.  The destructor never traps and performs, in this order: the
    deletion of the scope of the active choice, if there is one; the
    insertion of the disjunction in front of the position saved at
    construction, followed by its registration in the constraint graph;
    the re-enabling of the disabled choices, one by one in the order in
    which they were recorded.  When the list is the one construction
    left behind, the insertion puts the disjunction back where it was
    erased.  It does nothing else: past the rewind of the active choice
    only the inactive list, the constraint graph and the disabled bits
    differ, and every other member of the constraint system is as the
    rewind left it. *)
Theorem DisjunctionStep_destroy_order (self : DisjunctionStep.t) (w : World) :
  exists w',
    DisjunctionStep.destroy self w = Ret (tt, w')
    /\ events w' =
       events w ++ DisjunctionStep.resetEvents self
       ++ [EvListInsert (DisjunctionStep.AfterDisjunction self)
                        (DisjunctionStep.Disjunction self);
           EvGraphAdd (DisjunctionStep.Disjunction self)]
       ++ map EvSetEnabled (DisjunctionStep.DisabledChoices self)
    /\ InactiveConstraints (cs w') =
       ilist_insert (DisjunctionStep.AfterDisjunction self)
                    (DisjunctionStep.Disjunction self)
                    (InactiveConstraints (DisjunctionStep.afterReset self (cs w)))
    /\ CG (cs w') =
       DisjunctionStep.Disjunction self :: CG (DisjunctionStep.afterReset self (cs w))
    /\ (forall c,
          isDisabled c (cs w') =
          isDisabled c (DisjunctionStep.afterReset self (cs w))
          && negb (mem c (DisjunctionStep.DisabledChoices self)))
    /\ (forall original,
          NoDup original ->
          In (DisjunctionStep.Disjunction self) original ->
          DisjunctionStep.AfterDisjunction self =
            snd (ilist_erase (DisjunctionStep.Disjunction self) original) ->
          InactiveConstraints (DisjunctionStep.afterReset self (cs w)) =
            fst (ilist_erase (DisjunctionStep.Disjunction self) original) ->
          InactiveConstraints (cs w') = original)
    /\ DisabledSet (cs w') =
       fold_left (fun d x => remove_all x d)
                 (DisjunctionStep.DisabledChoices self)
                 (DisabledSet (DisjunctionStep.afterReset self (cs w)))
    /\ cs w' =
       with_DisabledSet (DisabledSet (cs w'))
         (with_CG (CG (cs w'))
            (with_InactiveConstraints (InactiveConstraints (cs w'))
               (DisjunctionStep.afterReset self (cs w))))
    /\ TypeVariables (cs w')
       = TypeVariables (DisjunctionStep.afterReset self (cs w))
    /\ resolvedOverloadSets (cs w')
       = resolvedOverloadSets (DisjunctionStep.afterReset self (cs w))
    /\ CurrentScore (cs w')
       = CurrentScore (DisjunctionStep.afterReset self (cs w))
    /\ PartialSolutionScope (cs w')
       = PartialSolutionScope (DisjunctionStep.afterReset self (cs w))
    /\ NumDisjunctions (cs w')
       = NumDisjunctions (DisjunctionStep.afterReset self (cs w))
    /\ solverState_ExprWeights (cs w')
       = solverState_ExprWeights (DisjunctionStep.afterReset self (cs w))
    /\ retainAllSolutions (cs w')
       = retainAllSolutions (DisjunctionStep.afterReset self (cs w)).
Proof.
  rewrite destroy_run.
  eexists. split; [reflexivity|]. simpl.
  split; [rewrite <- !app_assoc; reflexivity|].
  split; [reflexivity|]. split; [reflexivity|]. split; [|split].
  - intros c. unfold isDisabled. simpl. apply mem_enable_all.
  - intros original Hnd Hin Hpos Hlist.
    rewrite Hpos, Hlist. apply ilist_insert_erase; assumption.
  - repeat split.
Qed.

End DisjunctionDestroy.

Lemma DisjunctionStep_destroy_order_witness :
  exists w',
    @DisjunctionStep.destroy Example.types Example.externals Example.step
      (Example.world [4; 5] [] false) = Ret (tt, w')
    /\ InactiveConstraints (cs w') = [4; 100; 5].
Proof.
  destruct (@DisjunctionStep_destroy_order Example.types Example.externals
              Example.step (Example.world [4; 5] [] false))
    as (w' & Hrun & _ & _ & _ & _ & Hposition & _).
  exists w'. split; [exact Hrun|].
  apply Hposition.
  - repeat constructor; simpl; intuition discriminate.
  - simpl. auto.
  - reflexivity.
  - reflexivity.
Defined.

(** ** Disjunction steps: construction and pruning *)

Section DisjunctionPrune.
Context `{SolverExternals}.

Lemma disableOthers_cons (self : DisjunctionStep.t) (representative : ValueDecl)
    (c : Constraint) (rest : list Constraint) :
  DisjunctionStep.disableOthers self representative (c :: rest) =
  if DisjunctionStep.namesOtherDecl representative c
  then bind (setDisabled c)
            (fun _ => DisjunctionStep.disableOthers
                        (DisjunctionStep.push_DisabledChoice self c)
                        representative rest)
  else DisjunctionStep.disableOthers self representative rest.
Proof.
  simpl. unfold DisjunctionStep.namesOtherDecl.
  destruct (getOverloadChoice (constraintInfo c)) as [d|k]; [|reflexivity].
  destruct (Nat.eqb d representative); reflexivity.
Qed.

Lemma disableOthers_run (representative : ValueDecl) (nested : list Constraint) :
  forall (self : DisjunctionStep.t) (w : World),
    let targets := filter (DisjunctionStep.namesOtherDecl representative) nested in
    DisjunctionStep.disableOthers self representative nested w =
    Ret (DisjunctionStep.with_DisabledChoices
           (DisjunctionStep.DisabledChoices self ++ targets) self,
         {| cs := with_DisabledSet (rev targets ++ DisabledSet (cs w)) (cs w);
            events := events w ++ map EvSetDisabled targets |}).
Proof.
  induction nested as [|c nested IH]; intros self w.
  - destruct self, w as [[] ev]. simpl.
    unfold ret, DisjunctionStep.with_DisabledChoices. simpl.
    rewrite !app_nil_r. reflexivity.
  - cbv zeta in *. rewrite disableOthers_cons. simpl filter.
    destruct (DisjunctionStep.namesOtherDecl representative c).
    + unfold bind, setDisabled, perform. rewrite IH.
      destruct self, w as [[] ev]. simpl.
      unfold DisjunctionStep.with_DisabledChoices. simpl.
      rewrite <- !app_assoc. reflexivity.
    + apply IH.
Qed.

Lemma scanResolved_run (disjunction : Constraint) (repr : TypeVariableType)
    (resolved : list ResolvedOverloadSetListItem) :
  forall (self : DisjunctionStep.t) (w : World),
    DisjunctionStep.scanResolved self disjunction repr resolved w =
    match DisjunctionStep.decidingEntry repr resolved with
    | Some item =>
        match Choice item with
        | DeclChoice representative =>
            DisjunctionStep.disableOthers self representative
              (getNestedConstraints (constraintInfo disjunction)) w
        | OtherChoice _ => Ret (self, w)
        end
    | None => Ret (self, w)
    end.
Proof.
  induction resolved as [|item previous IH]; intros self w; simpl.
  - reflexivity.
  - destruct (isEqual (BoundType item) repr); simpl.
    + destruct (Choice item); reflexivity.
    + apply IH.
Qed.

Lemma pruneOverloadSet_run (self : DisjunctionStep.t) (disjunction : Constraint)
    (w : World) :
  getNestedConstraints (constraintInfo disjunction) <> [] ->
  let targets := DisjunctionStep.pruned disjunction (cs w) in
  DisjunctionStep.pruneOverloadSet self disjunction w =
  Ret (DisjunctionStep.with_DisabledChoices
         (DisjunctionStep.DisabledChoices self ++ targets) self,
       {| cs := with_DisabledSet (rev targets ++ DisabledSet (cs w)) (cs w);
          events := events w ++ map EvSetDisabled targets |}).
Proof.
  intros Hnested.
  assert (Hnoop :
    DisjunctionStep.pruneOverloadSet self disjunction w = Ret (self, w) ->
    DisjunctionStep.pruned disjunction (cs w) = [] ->
    let targets := DisjunctionStep.pruned disjunction (cs w) in
    DisjunctionStep.pruneOverloadSet self disjunction w =
    Ret (DisjunctionStep.with_DisabledChoices
           (DisjunctionStep.DisabledChoices self ++ targets) self,
         {| cs := with_DisabledSet (rev targets ++ DisabledSet (cs w)) (cs w);
            events := events w ++ map EvSetDisabled targets |})).
  { intros Hrun Hnone. simpl. rewrite Hrun, Hnone.
    destruct self, w as [[] ev]. simpl.
    unfold DisjunctionStep.with_DisabledChoices. simpl.
    rewrite !app_nil_r. reflexivity. }
  unfold DisjunctionStep.pruneOverloadSet, DisjunctionStep.pruned in *.
  destruct (getNestedConstraints (constraintInfo disjunction))
    as [|choice rest] eqn:Hlist; [congruence|].
  destruct (getAs_TypeVariableType (getFirstType (constraintInfo choice)))
    as [typeVar|]; [|apply Hnoop; reflexivity].
  destruct (getRepresentative typeVar) as [repr|]; [|apply Hnoop; reflexivity].
  destruct (Nat.eqb repr typeVar); [apply Hnoop; reflexivity|].
  unfold bind, SolverStep.getResolvedOverloads, bind, getCS, ret in *.
  rewrite scanResolved_run in *. rewrite Hlist in *.
  destruct (DisjunctionStep.decidingEntry repr (resolvedOverloadSets (cs w)))
    as [item|]; [|apply Hnoop; reflexivity].
  destruct (Choice item) as [representative|k]; [|apply Hnoop; reflexivity].
  apply disableOthers_run.
Qed.

Lemma namesOtherDecl_true (representative : ValueDecl) (c : Constraint) :
  DisjunctionStep.namesOtherDecl representative c = true <->
  exists d, getOverloadChoice (constraintInfo c) = DeclChoice d
            /\ d <> representative.
Proof.
  unfold DisjunctionStep.namesOtherDecl.
  destruct (getOverloadChoice (constraintInfo c)) as [d|k]; split.
  - intros Hd. exists d. split; [reflexivity|].
    destruct (Nat.eqb_spec d representative); [discriminate | assumption].
  - intros (d' & [= <-] & Hne).
    destruct (Nat.eqb_spec d representative); [contradiction | reflexivity].
  - discriminate.
  - intros (d' & Hd & _). discriminate.
Qed.

(** The constraints [pruned] lists, in the words of the code: the first
    nested constraint has a type variable as first type, that variable
    has a representative other than itself, the most recent entry of
    the history bound to the representative chose a declaration, and the
    constraint is a nested one that names another declaration. *)
Lemma pruned_spec (disjunction : Constraint) (s : ConstraintSystem)
    (c : Constraint) :
  In c (DisjunctionStep.pruned disjunction s) <->
  exists choice rest typeVar repr item representative d,
    getNestedConstraints (constraintInfo disjunction) = choice :: rest
    /\ getFirstType (constraintInfo choice) = TypeVar typeVar
    /\ getRepresentative typeVar = Some repr
    /\ repr <> typeVar
    /\ DisjunctionStep.decidingEntry repr (resolvedOverloadSets s) = Some item
    /\ Choice item = DeclChoice representative
    /\ In c (getNestedConstraints (constraintInfo disjunction))
    /\ getOverloadChoice (constraintInfo c) = DeclChoice d
    /\ d <> representative.
Proof.
  unfold DisjunctionStep.pruned. split.
  - destruct (getNestedConstraints (constraintInfo disjunction))
      as [|choice rest] eqn:Hlist; [intros []|].
    destruct (getFirstType (constraintInfo choice)) as [typeVar|n] eqn:Hfirst;
      cbn [getAs_TypeVariableType]; [|intros []].
    destruct (getRepresentative typeVar) as [repr|] eqn:Hrepr; [|intros []].
    destruct (Nat.eqb_spec repr typeVar) as [|Hne]; [intros []|].
    destruct (DisjunctionStep.decidingEntry repr (resolvedOverloadSets s))
      as [item|] eqn:Hentry; [|intros []].
    destruct (Choice item) as [representative|k] eqn:Hchoice; [|intros []].
    intros Hin. apply filter_In in Hin. destruct Hin as [Hin Hother].
    apply namesOtherDecl_true in Hother. destruct Hother as (d & Hd & Hdne).
    exists choice, rest, typeVar, repr, item, representative, d.
    repeat split; assumption.
  - intros (choice & rest & typeVar & repr & item & representative & d
            & Hlist & Hfirst & Hrepr & Hne & Hentry & Hchoice & Hin & Hd & Hdne).
    rewrite Hlist in *. rewrite Hfirst. cbn [getAs_TypeVariableType].
    rewrite Hrepr.
    destruct (Nat.eqb_spec repr typeVar) as [|_]; [contradiction|].
    rewrite Hentry, Hchoice. apply filter_In. split; [exact Hin|].
    apply namesOtherDecl_true. exists d. split; assumption.
Qed.

(** C5, as the code has it.  Constructing a step on a disjunction, a
    constraint of kind disjunction with at least one nested constraint,
    never traps and runs [pruneOverloadSet] once.  The choices it
    disables and records are the nested constraints that name a
    declaration other than the representative's, in their nested order,
    and it does so exactly when the first nested constraint has a type
    variable as first type, that variable has a representative other
    than itself, and the most recent entry of the resolved-overload
    history bound to the representative chose a declaration.  In every
    other case it disables nothing. *)
Theorem create_prunes_by_most_recent_entry (disjunction : Constraint)
    (solutions : SolutionsRef) (w : World) :
  getKind (constraintInfo disjunction) = Disjunction_kind ->
  getNestedConstraints (constraintInfo disjunction) <> [] ->
  exists self w',
    DisjunctionStep.create disjunction solutions w = Ret (self, w')
    /\ DisjunctionStep.DisabledChoices self
       = DisjunctionStep.pruned disjunction (cs w)
    /\ events w' =
       events w ++ [EvGraphRemove disjunction; EvListErase disjunction]
       ++ map EvSetDisabled (DisjunctionStep.pruned disjunction (cs w))
    /\ (forall c,
          isDisabled c (cs w') =
          mem c (DisjunctionStep.pruned disjunction (cs w))
          || isDisabled c (cs w))
    /\ (forall c,
          In c (DisjunctionStep.pruned disjunction (cs w)) <->
          exists choice rest typeVar repr item representative d,
            getNestedConstraints (constraintInfo disjunction) = choice :: rest
            /\ getFirstType (constraintInfo choice) = TypeVar typeVar
            /\ getRepresentative typeVar = Some repr
            /\ repr <> typeVar
            /\ DisjunctionStep.decidingEntry repr (resolvedOverloadSets (cs w))
               = Some item
            /\ Choice item = DeclChoice representative
            /\ In c (getNestedConstraints (constraintInfo disjunction))
            /\ getOverloadChoice (constraintInfo c) = DeclChoice d
            /\ d <> representative).
Proof.
  intros Hkind Hnested.
  unfold DisjunctionStep.create, bind, SolverStep.erase, bind, perform, getCS,
    ret, assert.
  simpl. rewrite Hkind. simpl. unfold ret.
  rewrite pruneOverloadSet_run by assumption.
  unfold assign. simpl.
  eexists _, _. split; [reflexivity|]. simpl.
  split; [reflexivity|].
  split; [rewrite <- !app_assoc; reflexivity|].
  split.
  - intros c. unfold isDisabled. simpl.
    rewrite mem_app, mem_rev. reflexivity.
  - intros c. apply pruned_spec.
Qed.

(** What the constructor leaves behind, besides the pruning: the
    disjunction is out of the inactive list and of the graph, and the
    step remembers the position behind it. *)
Lemma create_erases (disjunction : Constraint) (solutions : SolutionsRef)
    (w : World) :
  getKind (constraintInfo disjunction) = Disjunction_kind ->
  getNestedConstraints (constraintInfo disjunction) <> [] ->
  exists self w',
    DisjunctionStep.create disjunction solutions w = Ret (self, w')
    /\ DisjunctionStep.Disjunction self = disjunction
    /\ DisjunctionStep.ActiveChoice self = None
    /\ DisjunctionStep.DisabledChoices self
       = DisjunctionStep.pruned disjunction (cs w)
    /\ DisjunctionStep.AfterDisjunction self
       = snd (ilist_erase disjunction (InactiveConstraints (cs w)))
    /\ InactiveConstraints (cs w')
       = fst (ilist_erase disjunction (InactiveConstraints (cs w)))
    /\ CG (cs w') = remove_all disjunction (CG (cs w))
    /\ NumDisjunctions (cs w') = S (NumDisjunctions (cs w))
    /\ SolverStep.getState (DisjunctionStep.base self) = Setup.
Proof.
  intros Hkind Hnested.
  unfold DisjunctionStep.create, bind, SolverStep.erase, bind, perform, getCS,
    ret, assert.
  simpl. rewrite Hkind. simpl. unfold ret.
  rewrite pruneOverloadSet_run by assumption.
  unfold assign. simpl.
  eexists _, _. split; [reflexivity|]. simpl. repeat split.
Qed.

(** A step destroyed right after its construction leaves the inactive
    list as it found it, and every choice it disabled enabled. *)
Lemma create_destroy_roundtrip (disjunction : Constraint)
    (solutions : SolutionsRef) (w : World) :
  getKind (constraintInfo disjunction) = Disjunction_kind ->
  getNestedConstraints (constraintInfo disjunction) <> [] ->
  NoDup (InactiveConstraints (cs w)) ->
  In disjunction (InactiveConstraints (cs w)) ->
  exists self w1 w2,
    DisjunctionStep.create disjunction solutions w = Ret (self, w1)
    /\ DisjunctionStep.destroy self w1 = Ret (tt, w2)
    /\ InactiveConstraints (cs w2) = InactiveConstraints (cs w)
    /\ forall c, In c (DisjunctionStep.DisabledChoices self) ->
                 isDisabled c (cs w2) = false.
Proof.
  intros Hkind Hnested Hnodup Hin.
  destruct (create_erases disjunction solutions w Hkind Hnested)
    as (self & w1 & Hcreate & Hd & Hactive & _ & Hafter & Hlist & _).
  exists self, w1. eexists. split; [exact Hcreate|].
  split; [apply destroy_run|]. simpl.
  unfold DisjunctionStep.afterReset, DisjunctionStep.resetEvents.
  rewrite Hactive, Hd, Hafter, Hlist. split.
  - apply ilist_insert_erase; assumption.
  - intros c Hc. unfold isDisabled. simpl. rewrite mem_enable_all.
    apply mem_true_iff in Hc. rewrite Hc. apply andb_false_r.
Qed.

End DisjunctionPrune.

Lemma create_prunes_by_most_recent_entry_witness :
  exists self w',
    @DisjunctionStep.create Example.types Example.externals 100 0
      (Example.world [4; 100; 5] Example.resolvedTo7 false) = Ret (self, w')
    /\ DisjunctionStep.DisabledChoices self = [102].
Proof.
  destruct (@create_prunes_by_most_recent_entry Example.types
              Example.externals 100 0
              (Example.world [4; 100; 5] Example.resolvedTo7 false))
    as (self & w' & Hrun & Hdisabled & _).
  - reflexivity.
  - simpl. discriminate.
  - exists self, w'. split; [exact Hrun|].
    rewrite Hdisabled. reflexivity.
Defined.

(** C5, the claim refuted.  The representative, type variable [2], is
    the bound type of an entry of the history whose choice is
    declaration [7], and the nested choice [102] names declaration [8];
    yet nothing is disabled, because a more recent entry bound to [2]
    chose something that is not a declaration. *)
Lemma create_disables_nothing_behind_other_choice :
  exists self w',
    @DisjunctionStep.create Example.types Example.externals 100 0
      (Example.world [4; 100; 5] Example.resolvedTwice false) = Ret (self, w')
    /\ DisjunctionStep.DisabledChoices self = []
    /\ isDisabled 102 (cs w') = false
    /\ getNestedConstraints (Example.info 100) = [101; 102]
    /\ getFirstType (Example.info 101) = TypeVar 1
    /\ Example.representative 1 = Some 2
    /\ 2 <> 1
    /\ In {| BoundType := TypeVar 2; Choice := DeclChoice 7 |}
          Example.resolvedTwice
    /\ getOverloadChoice (Example.info 102) = DeclChoice 8
    /\ 8 <> 7.
Proof.
  eexists _, _. split; [cbv; reflexivity|].
  repeat split; try discriminate.
  simpl. auto.
Qed.

(** ** Type-variable steps *)

Section TypeVariableRun.
Import TypeVariableStep.
Variable solves : Binding -> bool.









End TypeVariableRun.


(* ================================================================== *)
(** * Part III: further properties of the sequence algorithms          *)
(* ================================================================== *)

(** ** [find] and [contains] *)

Section FindContains.
Variable Element : Type.
Variable eq : Element -> Element -> bool.

Lemma subscript_app_head (pre suffix : list Element) (e : Element) :
  Algorithm.subscript (pre ++ e :: suffix) (length pre) = Ret e.
Proof.
  unfold Algorithm.subscript.
  rewrite nth_error_app2, Nat.sub_diag by lia. reflexivity.
Qed.

Lemma find_loop_suffix (value : Element) (suffix : list Element) :
  forall pre,
    (forall e, In e pre -> eq e value = false) ->
    match Algorithm.find_loop eq (seq (length pre) (length suffix))
                              (pre ++ suffix) value with
    | Ret (Some i) =>
        exists e,
          nth_error (pre ++ suffix) i = Some e
          /\ eq e value = true
          /\ forall k e', k < i -> nth_error (pre ++ suffix) k = Some e' ->
                          eq e' value = false
    | Ret None => forall e, In e (pre ++ suffix) -> eq e value = false
    | Trap => False
    end.
Proof.
  induction suffix as [|x suffix IH]; intros pre Hpre; simpl.
  - rewrite app_nil_r. exact Hpre.
  - rewrite subscript_app_head.
    destruct (eq x value) eqn:Hx.
    + exists x. split; [|split; [exact Hx|]].
      * rewrite nth_error_app2, Nat.sub_diag by lia. reflexivity.
      * intros k e' Hk He'. apply Hpre.
        rewrite nth_error_app1 in He' by exact Hk.
        eapply nth_error_In; eauto.
    + specialize (IH (pre ++ [x])).
      rewrite length_app, Nat.add_1_r, <- app_assoc in IH. simpl in IH.
      apply IH. intros e He. apply in_app_or in He.
      destruct He as [He | [<- | []]]; auto.
Qed.

(** X1: [find] never traps.  An index it returns holds an element equal to
    the value, and no earlier position does; when it returns [nil] no
    element of the collection is equal to the value. *)
Theorem find_first_match (domain : list Element) (value : Element) :
  match Algorithm.find eq domain value with
  | Ret (Some i) =>
      exists e,
        nth_error domain i = Some e
        /\ eq e value = true
        /\ forall k e', k < i -> nth_error domain k = Some e' ->
                        eq e' value = false
  | Ret None => forall e, In e domain -> eq e value = false
  | Trap => False
  end.
Proof.
  apply (@find_loop_suffix value domain []). intros e [].
Qed.

Lemma contains_exists (seq : list Element) (predicate : Element -> bool) :
  Algorithm.contains seq predicate = true <->
  exists a, In a seq /\ predicate a = true.
Proof.
  induction seq as [|a seq IH]; simpl.
  - split; [discriminate | intros (a & [] & _)].
  - destruct (predicate a) eqn:Ha.
    + split; [|reflexivity]. intros _. exists a. auto.
    + rewrite IH. split.
      * intros (b & Hb & Hpb). exists b. auto.
      * intros (b & [<- | Hb] & Hpb); [congruence|]. exists b. auto.
Qed.

(** X2: [contains] answers whether some element satisfies the predicate;
    with an element it answers exactly when [find] returns an index. *)
Theorem contains_agrees_with_find (seq : list Element) (x : Element)
    (predicate : Element -> bool) :
  (Algorithm.contains seq predicate = true <->
   exists a, In a seq /\ predicate a = true)
  /\ (Algorithm.contains_element eq seq x = true <->
      exists i, Algorithm.find eq seq x = Ret (Some i)).
Proof.
  split; [apply contains_exists|].
  unfold Algorithm.contains_element. rewrite contains_exists.
  pose proof (@find_loop_suffix x seq [] (fun e (F : In e []) => match F with end)) as Hfind.
  change (match Algorithm.find eq seq x with
          | Ret (Some i) =>
              exists e,
                nth_error seq i = Some e
                /\ eq e x = true
                /\ forall k e', k < i -> nth_error seq k = Some e' ->
                                eq e' x = false
          | Ret None => forall e, In e seq -> eq e x = false
          | Trap => False
          end) in Hfind.
  destruct (Algorithm.find eq seq x) as [[i|]|]; [| |destruct Hfind].
  - destruct Hfind as (e & He & Heq & _). split.
    + intros _. exists i. reflexivity.
    + intros _. exists e. split; [eapply nth_error_In; eauto | exact Heq].
  - split.
    + intros (a & Ha & Hax). rewrite (Hfind a Ha) in Hax. discriminate.
    + intros (i & Hi). discriminate.
Qed.

End FindContains.

(** ** [startsWith] and [equal] *)

Section PrefixEqual.
Variable Element : Type.
Variable eq : Element -> Element -> bool.

(** X3: [startsWith s0 s1] holds exactly when [s1], compared element by
    element with [==], is an initial part of [s0]: every sequence starts
    with the empty one, and none starts with a longer one. *)
Theorem startsWith_prefix (s0 s1 : list Element) :
  Algorithm.startsWith eq s0 s1 = true <->
  exists front rest,
    s0 = front ++ rest /\ Forall2 (fun a b => eq a b = true) front s1.
Proof.
  revert s1. induction s0 as [|e0 s0 IH]; intros [|e1 s1]; simpl.
  - split; [|reflexivity]. intros _. exists [], []. auto.
  - split; [discriminate|]. intros (front & rest & Heq & Hall).
    destruct front; [inversion Hall | discriminate].
  - split; [|reflexivity]. intros _. exists [], (e0 :: s0). auto.
  - destruct (eq e0 e1) eqn:He; simpl.
    + rewrite IH. split.
      * intros (front & rest & -> & Hall). exists (e0 :: front), rest. auto.
      * intros (front & rest & Heq & Hall).
        inversion Hall; subst. injection Heq as -> ->. eauto.
    + split; [discriminate|]. intros (front & rest & Heq & Hall).
      inversion Hall; subst. injection Heq as -> ->. congruence.
Qed.

(** X4: [equal] with a predicate holds exactly when the two sequences have
    the same length and the predicate holds position by position; the
    [Equatable] version is the same function at [==]. *)
Theorem equal_pointwise (a1 a2 : list Element)
    (pred : Element -> Element -> bool) :
  (Algorithm.equal_pred a1 a2 pred = true <->
   Forall2 (fun x y => pred x y = true) a1 a2)
  /\ Algorithm.equal eq a1 a2 = Algorithm.equal_pred a1 a2 eq.
Proof.
  split.
  - revert a2. induction a1 as [|e1 a1 IH]; intros [|e2 a2]; simpl.
    + split; auto.
    + split; [discriminate | intros Hall; inversion Hall].
    + split; [discriminate | intros Hall; inversion Hall].
    + destruct (pred e1 e2) eqn:He; simpl.
      * rewrite IH. split; [auto | intros Hall; inversion Hall; auto].
      * split; [discriminate | intros Hall; inversion Hall; congruence].
  - revert a2. induction a1 as [|e1 a1 IH]; intros [|e2 a2]; simpl;
      try reflexivity.
    rewrite IH. reflexivity.
Qed.

End PrefixEqual.

(** ** [lexicographicalCompare] *)

Section Lexicographic.
Variable Element : Type.
Variable less : Element -> Element -> bool.
Hypothesis less_asym : forall a b, less a b = true -> less b a = false.
Hypothesis less_trans :
  forall a b c, less a b = true -> less b c = true -> less a c = true.
Hypothesis less_total :
  forall a b, less a b = false -> less b a = false -> a = b.

Let lex := Algorithm.lexicographicalCompare less.

Lemma less_irrefl (a : Element) : less a a = false.
Proof.
  destruct (less a a) eqn:Ha; [|reflexivity].
  pose proof (less_asym Ha). congruence.
Qed.

Lemma lex_irrefl (a : list Element) : lex a a = false.
Proof.
  induction a as [|e a IH]; simpl; [reflexivity|].
  rewrite less_irrefl. exact IH.
Qed.

Lemma lex_asym (a : list Element) :
  forall b, lex a b = true -> lex b a = false.
Proof.
  induction a as [|e1 a IH]; intros [|e2 b]; simpl; try congruence.
  destruct (less e1 e2) eqn:H12.
  - intros _. rewrite (less_asym H12). reflexivity.
  - destruct (less e2 e1) eqn:H21; [discriminate|]. apply IH.
Qed.

Lemma lex_trans (a : list Element) :
  forall b c, lex a b = true -> lex b c = true -> lex a c = true.
Proof.
  induction a as [|e1 a IH]; intros [|e2 b] [|e3 c]; simpl; try congruence.
  destruct (less e1 e2) eqn:H12.
  - intros _. destruct (less e2 e3) eqn:H23.
    + intros _. rewrite (less_trans H12 H23). reflexivity.
    + destruct (less e3 e2) eqn:H32; [discriminate|].
      rewrite <- (less_total H23 H32), H12. reflexivity.
  - destruct (less e2 e1) eqn:H21; [discriminate|].
    rewrite (less_total H12 H21).
    destruct (less e2 e3); [reflexivity|].
    destruct (less e3 e2); [discriminate|]. apply IH.
Qed.

Lemma lex_total (a : list Element) :
  forall b, lex a b = false -> lex b a = false -> a = b.
Proof.
  induction a as [|e1 a IH]; intros [|e2 b]; simpl; try congruence.
  destruct (less e1 e2) eqn:H12; [discriminate|].
  destruct (less e2 e1) eqn:H21; [discriminate|].
  intros Hab Hba. rewrite (less_total H12 H21), (IH b Hab Hba). reflexivity.
Qed.

(** X5: when the comparison of elements is a strict total order, so is
    [lexicographicalCompare] on sequences: no sequence precedes itself,
    precedence is transitive, and of two different sequences exactly one
    precedes the other. *)
Theorem lexicographicalCompare_strict_total_order :
  (forall a, Algorithm.lexicographicalCompare less a a = false)
  /\ (forall a b,
        Algorithm.lexicographicalCompare less a b = true ->
        Algorithm.lexicographicalCompare less b a = false)
  /\ (forall a b c,
        Algorithm.lexicographicalCompare less a b = true ->
        Algorithm.lexicographicalCompare less b c = true ->
        Algorithm.lexicographicalCompare less a c = true)
  /\ (forall a b,
        Algorithm.lexicographicalCompare less a b = false ->
        Algorithm.lexicographicalCompare less b a = false ->
        a = b).
Proof.
  split; [exact lex_irrefl|]. split; [exact lex_asym|].
  split; [exact lex_trans | exact lex_total].
Qed.

End Lexicographic.

Lemma Z_ltb_asym (a b : Z) : Z.ltb a b = true -> Z.ltb b a = false.
Proof. rewrite Z.ltb_lt, Z.ltb_ge. lia. Qed.

Lemma Z_ltb_total (a b : Z) : Z.ltb a b = false -> Z.ltb b a = false -> a = b.
Proof. rewrite !Z.ltb_ge. lia. Qed.

Lemma lexicographicalCompare_strict_total_order_witness :
  Algorithm.lexicographicalCompare Z.ltb [1; 2]%Z [1; 2; 0]%Z = true
  /\ Algorithm.lexicographicalCompare Z.ltb [1; 2; 0]%Z [1; 2]%Z = false.
Proof.
  destruct (@lexicographicalCompare_strict_total_order Z Z.ltb
              Z_ltb_asym Z_ltb_trans Z_ltb_total) as (_ & Hasym & _).
  split; [reflexivity|]. apply Hasym. reflexivity.
Defined.

Section LexicographicPrefix.
Variable Element : Type.
Variable less : Element -> Element -> bool.
Hypothesis less_irrefl' : forall a, less a a = false.

(** X6: a sequence precedes every proper extension of itself and never the
    other way round; in particular the empty sequence precedes every
    other one and nothing precedes it. *)
Theorem lexicographicalCompare_prefix (a : list Element) (e : Element)
    (rest : list Element) :
  Algorithm.lexicographicalCompare less a (a ++ e :: rest) = true
  /\ Algorithm.lexicographicalCompare less (a ++ e :: rest) a = false.
Proof.
  induction a as [|x a IH]; simpl.
  - auto.
  - rewrite less_irrefl'. exact IH.
Qed.

End LexicographicPrefix.

Lemma lexicographicalCompare_prefix_witness :
  Algorithm.lexicographicalCompare Z.ltb [1]%Z ([1] ++ 2 :: [])%Z = true
  /\ Algorithm.lexicographicalCompare Z.ltb ([1] ++ 2 :: [])%Z [1]%Z = false.
Proof.
  apply (@lexicographicalCompare_prefix Z Z.ltb Z.ltb_irrefl).
Defined.

(** ** [min] and [max] *)

Section MinMaxValues.
Variable Element : Type.
Variable less : Element -> Element -> bool.
Hypothesis less_irrefl : forall a, less a a = false.
Hypothesis less_trans :
  forall a b c, less a b = true -> less b c = true -> less a c = true.

Lemma less_asym' (a b : Element) : less a b = true -> less b a = false.
Proof.
  intros Hab. destruct (less b a) eqn:Hba; [|reflexivity].
  rewrite <- (less_irrefl a). symmetry. exact (less_trans Hab Hba).
Qed.

(** X7: [min] and [max] of two values hand back the two arguments, one
    each, also when neither is less than the other: then [min] is the
    first and [max] the second.  Neither argument is below [min] or
    above [max]. *)
Theorem min_max_split (x y : Element) :
  ((Algorithm.min less x y = x /\ Algorithm.max less x y = y)
   \/ (Algorithm.min less x y = y /\ Algorithm.max less x y = x))
  /\ (less y x = false ->
      Algorithm.min less x y = x /\ Algorithm.max less x y = y)
  /\ less x (Algorithm.min less x y) = false
  /\ less y (Algorithm.min less x y) = false
  /\ less (Algorithm.max less x y) x = false
  /\ less (Algorithm.max less x y) y = false.
Proof.
  unfold Algorithm.min, Algorithm.max.
  destruct (less y x) eqn:Hyx.
  - pose proof (less_asym' Hyx). rewrite !less_irrefl. intuition discriminate.
  - rewrite !less_irrefl. intuition.
Qed.

(** X8: [min] of three values and more is what [minElement] returns on the
    same values in the same order: one of them, with none below it. *)
Theorem min_rest_least (x y z : Element) (rest : list Element) :
  Algorithm.minElement less (x :: y :: z :: rest)
  = Ret (Algorithm.min_rest less x y z rest)
  /\ In (Algorithm.min_rest less x y z rest) (x :: y :: z :: rest)
  /\ forall t, In t (x :: y :: z :: rest) ->
               less t (Algorithm.min_rest less x y z rest) = false.
Proof.
  split; [reflexivity|].
  change (Algorithm.min_rest less x y z rest)
    with (fold_left (fun r t => if less t r then t else r)
                    (y :: z :: rest) x).
  apply (@fold_keepMin Element less less_irrefl less_trans
           (y :: z :: rest) x [x]).
  - left. reflexivity.
  - intros t [<- | []]. apply less_irrefl.
Qed.

Hypothesis less_cotrans :
  forall a b c, less a c = true -> less a b = true \/ less b c = true.

Lemma fold_keepLast (rest : list Element) :
  forall r seen,
    In r seen ->
    (forall t, In t seen -> less r t = false) ->
    let m := fold_left (fun r t => if negb (less t r) then t else r) rest r in
    In m (seen ++ rest)
    /\ forall t, In t (seen ++ rest) -> less m t = false.
Proof.
  induction rest as [|e rest IH]; intros r seen Hin Hhigh; simpl.
  - rewrite app_nil_r. auto.
  - replace (seen ++ e :: rest) with ((seen ++ [e]) ++ rest)
      by (rewrite <- app_assoc; reflexivity).
    apply IH.
    + destruct (less e r); apply in_or_app; simpl; auto.
    + intros t Ht. apply in_app_or in Ht.
      destruct (less e r) eqn:He; simpl.
      * destruct Ht as [Ht | [<- | []]]; [auto|].
        apply less_asym'. exact He.
      * destruct Ht as [Ht | [<- | []]]; [|apply less_irrefl].
        destruct (less e t) eqn:Het; [|reflexivity].
        destruct (less_cotrans r Het) as [Her | Hrt]; [congruence|].
        rewrite (Hhigh t Ht) in Hrt. discriminate.
Qed.

(** X9: [max] of three values and more returns one of them, with none above
    it, when [<] is a strict weak order. *)
Theorem max_rest_greatest (x y z : Element) (rest : list Element) :
  In (Algorithm.max_rest less x y z rest) (x :: y :: z :: rest)
  /\ forall t, In t (x :: y :: z :: rest) ->
               less (Algorithm.max_rest less x y z rest) t = false.
Proof.
  unfold Algorithm.max_rest.
  set (r1 := if less y x then x else y).
  set (r2 := if less r1 z then z else r1).
  assert (H1 : In r1 [x; y] /\ forall t, In t [x; y] -> less r1 t = false).
  { unfold r1. destruct (less y x) eqn:Hyx; simpl.
    - split; [auto|]. intros t [<- | [<- | []]];
        [apply less_irrefl | apply less_asym'; exact Hyx].
    - split; [auto|]. intros t [<- | [<- | []]];
        [exact Hyx | apply less_irrefl]. }
  assert (H2 : In r2 [x; y; z] /\ forall t, In t [x; y; z] -> less r2 t = false).
  { destruct H1 as [Hin1 Hhigh1]. unfold r2.
    destruct (less r1 z) eqn:Hz.
    - split; [simpl; auto|]. intros t Ht.
      assert (Ht' : In t [x; y] \/ t = z) by (simpl in *; intuition).
      destruct Ht' as [Ht' | ->]; [|apply less_irrefl].
      destruct (less z t) eqn:Hzt; [|reflexivity].
      rewrite <- (Hhigh1 t Ht'). symmetry. exact (less_trans Hz Hzt).
    - split; [simpl in *; intuition|]. intros t Ht.
      assert (Ht' : In t [x; y] \/ t = z) by (simpl in *; intuition).
      destruct Ht' as [Ht' | ->]; auto. }
  destruct H2 as [Hin2 Hhigh2].
  exact (@fold_keepLast rest r2 [x; y; z] Hin2 Hhigh2).
Qed.

End MinMaxValues.

Lemma min_max_split_witness :
  (Algorithm.min Z.ltb 2 2 = 2 /\ Algorithm.max Z.ltb 2 2 = 2)%Z
  /\ Z.ltb (Algorithm.max Z.ltb 3 1)%Z (Algorithm.min Z.ltb 3 1)%Z = false.
Proof.
  destruct (@min_max_split Z Z.ltb Z.ltb_irrefl Z_ltb_trans 2 2)%Z
    as (_ & Htie & _).
  split; [apply Htie; reflexivity|].
  destruct (@min_max_split Z Z.ltb Z.ltb_irrefl Z_ltb_trans 3 1)%Z
    as (_ & _ & _ & _ & _ & Hhigh).
  exact Hhigh.
Defined.

Lemma min_rest_least_witness :
  In (Algorithm.min_rest Z.ltb 4 2 3 [1; 5])%Z [4; 2; 3; 1; 5]%Z
  /\ forall t, In t [4; 2; 3; 1; 5]%Z ->
               Z.ltb t (Algorithm.min_rest Z.ltb 4 2 3 [1; 5])%Z = false.
Proof.
  destruct (@min_rest_least Z Z.ltb Z.ltb_irrefl Z_ltb_trans 4 2 3 [1; 5])%Z
    as (_ & Hin & Hleast).
  split; [exact Hin | exact Hleast].
Defined.

Lemma Z_ltb_cotrans (a b c : Z) :
  Z.ltb a c = true -> Z.ltb a b = true \/ Z.ltb b c = true.
Proof. rewrite !Z.ltb_lt. lia. Qed.

Lemma max_rest_greatest_witness :
  In (Algorithm.max_rest Z.ltb 4 2 3 [1; 5])%Z [4; 2; 3; 1; 5]%Z
  /\ forall t, In t [4; 2; 3; 1; 5]%Z ->
               Z.ltb (Algorithm.max_rest Z.ltb 4 2 3 [1; 5])%Z t = false.
Proof.
  exact (@max_rest_greatest Z Z.ltb Z.ltb_irrefl Z_ltb_trans Z_ltb_cotrans
           4 2 3 [1; 5])%Z.
Defined.

(** ** [enumerate] *)

Section EnumerateIndices.
Variable Element : Type.
Variable Int_max : Z.

Lemma collect_from (items : list Element) :
  forall (start fuel : nat),
    length items < fuel ->
    (Z.of_nat start + Z.of_nat (length items) <= Int_max)%Z ->
    Algorithm.collect Int_max fuel
      {| Algorithm.base := items; Algorithm.count := Z.of_nat start |}
    = Some (Ret (combine (map Z.of_nat (seq start (length items))) items)).
Proof.
  induction items as [|e items IH]; intros start fuel Hfuel Hfits;
    (destruct fuel as [|fuel]; [simpl in Hfuel; lia|]);
    [reflexivity|].
  cbn [length] in *. simpl.
  unfold Algorithm.EnumerateGenerator_next. simpl.
  destruct (Z.eqb_spec (Z.of_nat start) Int_max) as [Heq | _]; [lia|].
  replace (Z.of_nat start + 1)%Z with (Z.of_nat (S start)) by lia.
  rewrite IH by lia. reflexivity.
Qed.

(** X10: a loop over [enumerate(seq)] meets the elements of [seq] in
    order, each paired with its position counted from 0 (for a [seq] of
    at most [Int.max] elements, so that the counter does not
    overflow). *)
Theorem enumerate_counts_from_zero (items : list Element) :
  (Z.of_nat (length items) <= Int_max)%Z ->
  Algorithm.collect Int_max (S (length items)) (Algorithm.enumerate items)
  = Some (Ret (combine (map Z.of_nat (seq 0 (length items))) items)).
Proof.
  intros Hlen. apply (collect_from items 0); simpl; lia.
Qed.

End EnumerateIndices.

Lemma enumerate_counts_from_zero_witness :
  Algorithm.collect 3 4 (Algorithm.enumerate [7; 8; 9])
  = Some (Ret [(0%Z, 7); (1%Z, 8); (2%Z, 9)]).
Proof.
  apply (@enumerate_counts_from_zero nat 3%Z [7; 8; 9]). simpl. lia.
Defined.

(** ** Sorting *)

Section InsertionSortProof.
Variable Element : Type.
Variable less : Element -> Element -> bool.
Hypothesis less_asym : forall a b, less a b = true -> less b a = false.

(** [b] may follow [a]: it is not less than [a]. *)
Let inOrder (a b : Element) : Prop := less b a = false.

Lemma assign_at_middle (front : list Element) (h v : Element)
    (back : list Element) :
  Algorithm.assign_at (front ++ h :: back) (length front) v
  = Ret (front ++ v :: back).
Proof.
  assert (Hfirst : firstn (length front) (front ++ h :: back) = front).
  { rewrite firstn_app, Nat.sub_diag, firstn_all. simpl. apply app_nil_r. }
  assert (Hskip : skipn (S (length front)) (front ++ h :: back) = back).
  { rewrite skipn_app, skipn_all2 by lia.
    replace (S (length front) - length front) with 1 by lia. reflexivity. }
  unfold Algorithm.assign_at, Algorithm.replace_at.
  rewrite Hfirst, Hskip, length_app. cbn [length].
  destruct (Nat.ltb_spec (length front) (length front + S (length back)));
    [reflexivity | lia].
Qed.

Lemma Sorted_app_inv (R : Element -> Element -> Prop) (l1 l2 : list Element) :
  Sorted R (l1 ++ l2) -> Sorted R l1 /\ Sorted R l2.
Proof.
  induction l1 as [|a l1 IH]; simpl; intros Hs.
  - split; [constructor | exact Hs].
  - inversion Hs as [|? ? Hrest Hhd]; subst.
    destruct (IH Hrest) as [H1 H2]. split; [|exact H2].
    constructor; [exact H1|].
    destruct l1; [constructor|]. inversion Hhd; subst. constructor. assumption.
Qed.

Lemma Sorted_app_join (R : Element -> Element -> Prop) (l1 : list Element)
    (x : Element) (l2 : list Element) :
  Sorted R (l1 ++ [x]) -> Sorted R (x :: l2) -> Sorted R (l1 ++ x :: l2).
Proof.
  induction l1 as [|a l1 IH]; simpl; intros H1 H2; [exact H2|].
  inversion H1 as [|? ? Hrest Hhd]; subst.
  constructor; [apply IH; assumption|].
  destruct l1; simpl in *; inversion Hhd; subst; constructor; assumption.
Qed.

Lemma Sorted_insert (L1 L2 : list Element) (x : Element) :
  Sorted inOrder (L1 ++ L2) ->
  Forall (fun s => less x s = true) L2 ->
  (L1 = [] \/ exists L1' p, L1 = L1' ++ [p] /\ less x p = false) ->
  Sorted inOrder (L1 ++ x :: L2).
Proof.
  intros Hsorted Hgreater Hstop.
  destruct (Sorted_app_inv _ _ Hsorted) as [H1 H2].
  assert (Hx : Sorted inOrder (x :: L2)).
  { constructor; [exact H2|].
    destruct L2 as [|y L2]; constructor.
    inversion Hgreater; subst. apply less_asym. assumption. }
  destruct Hstop as [-> | (L1' & p & -> & Hp)]; [exact Hx|].
  apply Sorted_app_join; [|exact Hx].
  rewrite <- app_assoc. simpl.
  apply Sorted_app_join; [exact H1|].
  repeat constructor. exact Hp.
Qed.

Lemma insertion_shift_spec (L : list Element) :
  forall (front : list Element) (h : Element) (S back : list Element)
         (x : Element),
    L <> [] ->
    Forall (fun s => less x s = true) S ->
    exists L1 L2 h',
      L = L1 ++ L2
      /\ Forall (fun s => less x s = true) (L2 ++ S)
      /\ (L1 = [] \/ exists L1' p, L1 = L1' ++ [p] /\ less x p = false)
      /\ (L2 = [] -> h' = h)
      /\ Algorithm.insertion_shift less (front ++ L ++ h :: S ++ back) x
           (length front + length L) (length front)
         = Ret (front ++ L1 ++ h' :: L2 ++ S ++ back,
                length front + length L1).
Proof.
  induction L as [|p L IH] using rev_ind; intros front h S back x Hne HS;
    [congruence|].
  clear Hne.
  rewrite length_app. simpl length.
  replace (length front + (length L + 1)) with (Datatypes.S (length front + length L))
    by lia.
  cbn [Algorithm.insertion_shift].
  replace (front ++ (L ++ [p]) ++ h :: S ++ back)
    with ((front ++ L) ++ p :: h :: S ++ back)
    by (rewrite <- !app_assoc; reflexivity).
  replace (length front + length L) with (length (front ++ L))
    by (rewrite length_app; reflexivity).
  rewrite subscript_app_head.
  destruct (less x p) eqn:Hp; simpl negb; cbv iota.
  - replace ((front ++ L) ++ p :: h :: S ++ back)
      with (((front ++ L) ++ [p]) ++ h :: S ++ back)
      by (rewrite <- !app_assoc; reflexivity).
    replace (Datatypes.S (length (front ++ L)))
      with (length ((front ++ L) ++ [p]))
      by (rewrite !length_app; simpl; lia).
    rewrite assign_at_middle.
    rewrite !length_app. simpl length.
    destruct (Nat.eqb_spec (length front + length L) (length front)) as [He | Hn];
      simpl negb; cbv iota.
    + assert (L = []) by (destruct L; [reflexivity | simpl in He; lia]).
      subst L. exists [], [p], p. simpl.
      repeat split; auto; try discriminate.
      rewrite Nat.add_0_r, app_nil_r, <- app_assoc. reflexivity.
    + assert (HL : L <> []) by (intros ->; simpl in Hn; lia).
      destruct (IH front p (p :: S) back x HL) as (L1 & L2 & h' & HLeq & Hall & Hstop & _ & Hrun).
      { constructor; assumption. }
      exists L1, (L2 ++ [p]), h'.
      split; [rewrite HLeq, app_assoc; reflexivity|].
      split; [rewrite <- app_assoc; exact Hall|].
      split; [exact Hstop|].
      split; [intros Habs; destruct L2; discriminate|].
      replace (((front ++ L) ++ [p]) ++ p :: S ++ back)
        with (front ++ L ++ p :: (p :: S) ++ back)
        by (rewrite <- !app_assoc; reflexivity).
      rewrite Hrun. rewrite <- !app_assoc. reflexivity.
  - exists (L ++ [p]), [], h. simpl.
    split; [rewrite app_nil_r; reflexivity|].
    split; [exact HS|].
    split; [right; exists L, p; auto|].
    split; [reflexivity|].
    rewrite !length_app. simpl length.
    rewrite <- !app_assoc. simpl.
    replace (Datatypes.S (length front + length L))
      with (length front + (length L + 1)) by lia.
    reflexivity.
Qed.

Lemma insertion_loop_spec (rest : list Element) :
  forall (fuel : nat) (front sorted back : list Element),
    sorted <> [] ->
    Sorted inOrder sorted ->
    length rest < fuel ->
    exists out,
      Algorithm.insertion_loop less fuel (front ++ sorted ++ rest ++ back)
        (length front + length sorted - 1)
        {| Algorithm.startIndex := length front;
           Algorithm.endIndex := length front + length sorted + length rest |}
      = Some (Ret (front ++ out ++ back))
      /\ Permutation (sorted ++ rest) out
      /\ Sorted inOrder out.
Proof.
  induction rest as [|x rest IH]; intros fuel front sorted back Hne Hsorted Hfuel;
    (destruct fuel as [|fuel]; [simpl in Hfuel; lia|]);
    assert (Hlen : 0 < length sorted) by (destruct sorted; [congruence | simpl; lia]);
    cbn [Algorithm.insertion_loop Algorithm.endIndex Algorithm.startIndex];
    replace (S (length front + length sorted - 1))
      with (length front + length sorted) by lia.
  - simpl length. rewrite Nat.add_0_r, Nat.eqb_refl.
    exists sorted. rewrite !app_nil_r. simpl.
    split; [reflexivity|]. split; [apply Permutation_refl | exact Hsorted].
  - simpl length.
    destruct (Nat.eqb_spec (length front + length sorted)
                           (length front + length sorted + S (length rest)));
      [lia|].
    replace (front ++ sorted ++ (x :: rest) ++ back)
      with ((front ++ sorted) ++ x :: rest ++ back)
      by (rewrite <- !app_assoc; reflexivity).
    replace (length front + length sorted) with (length (front ++ sorted))
      by (rewrite length_app; reflexivity).
    rewrite subscript_app_head.
    destruct (@insertion_shift_spec sorted front x [] (rest ++ back) x Hne)
      as (L1 & L2 & h' & HLeq & Hall & Hstop & Hkeep & Hrun); [constructor|].
    rewrite length_app.
    replace ((front ++ sorted) ++ x :: rest ++ back)
      with (front ++ sorted ++ x :: [] ++ rest ++ back)
      by (rewrite <- !app_assoc; reflexivity).
    rewrite Hrun. rewrite app_nil_r in Hall.
    assert (Hnew : Sorted inOrder (L1 ++ x :: L2)).
    { apply Sorted_insert; [rewrite <- HLeq; exact Hsorted | exact Hall | exact Hstop]. }
    assert (Hperm : Permutation (sorted ++ x :: rest) ((L1 ++ x :: L2) ++ rest)).
    { rewrite HLeq, <- !app_assoc. simpl.
      apply Permutation_app_head. symmetry. apply Permutation_middle. }
    destruct (IH fuel front (L1 ++ x :: L2) back) as (out & Hout & Hp & Hs);
      [destruct L1; discriminate | exact Hnew | simpl in Hfuel; lia |].
    assert (Hidx : length front + length (L1 ++ x :: L2) - 1
                   = length front + length sorted).
    { rewrite HLeq, !length_app. simpl. lia. }
    assert (Hend : length front + length (L1 ++ x :: L2) + length rest
                   = length front + length sorted + S (length rest)).
    { rewrite HLeq, !length_app. simpl. lia. }
    rewrite Hidx, Hend in Hout.
    exists out. split; [|split; [eapply Permutation_trans; eauto | exact Hs]].
    destruct (Nat.eqb_spec (length front + length L1) (length front + length sorted))
      as [He | Hn]; simpl negb; cbv iota.
    + assert (L2 = []).
      { rewrite HLeq, length_app in He. destruct L2; [reflexivity | simpl in He; lia]. }
      subst L2. rewrite (Hkeep eq_refl).
      rewrite <- ?app_assoc in Hout. simpl in Hout.
      rewrite <- ?app_assoc. simpl. exact Hout.
    + replace (front ++ L1 ++ h' :: L2 ++ [] ++ rest ++ back)
        with ((front ++ L1) ++ h' :: L2 ++ rest ++ back)
        by (rewrite <- !app_assoc; reflexivity).
      replace (length front + length L1) with (length (front ++ L1))
        by (rewrite length_app; reflexivity).
      rewrite assign_at_middle.
      rewrite <- ?app_assoc in Hout. simpl in Hout.
      rewrite <- ?app_assoc. simpl. exact Hout.
Qed.

Lemma insertionSort_range_spec (elements : list Element)
    (range : Algorithm.Range) (fuel : nat) :
  Algorithm.startIndex range <= Algorithm.endIndex range ->
  Algorithm.endIndex range <= length elements ->
  Algorithm.endIndex range - Algorithm.startIndex range <= fuel ->
  exists sorted,
    Algorithm.insertionSort less fuel elements range
    = Some (Ret (firstn (Algorithm.startIndex range) elements
                 ++ sorted
                 ++ skipn (Algorithm.endIndex range) elements))
    /\ Permutation
         (firstn (Algorithm.endIndex range - Algorithm.startIndex range)
                 (skipn (Algorithm.startIndex range) elements))
         sorted
    /\ Sorted (fun a b => less b a = false) sorted.
Proof.
  destruct range as [first last]. simpl. intros Horder Hbound Hfuel.
  set (front := firstn first elements).
  set (middle := firstn (last - first) (skipn first elements)).
  set (back := skipn last elements).
  assert (Hsplit : elements = front ++ middle ++ back).
  { unfold front, middle, back.
    rewrite <- (firstn_skipn first elements) at 1. f_equal.
    rewrite <- (firstn_skipn (last - first) (skipn first elements)) at 1.
    f_equal. rewrite skipn_skipn. f_equal. lia. }
  assert (Hfront : length front = first)
    by (unfold front; rewrite length_firstn; lia).
  assert (Hmiddle : length middle = last - first)
    by (unfold middle; rewrite length_firstn, length_skipn; lia).
  unfold Algorithm.insertionSort, Algorithm.nonEmpty. simpl.
  destruct (Nat.eqb_spec first last) as [-> | Hne]; simpl.
  - exists []. rewrite Nat.sub_diag in Hmiddle.
    destruct middle; [|discriminate].
    split; [rewrite Hsplit at 1; reflexivity|].
    split; constructor.
  - destruct middle as [|m rest] eqn:Hm; [simpl in Hmiddle; lia|].
    destruct (@insertion_loop_spec rest fuel front [m] back) as (out & Hrun & Hperm & Hsorted);
      [discriminate | repeat constructor | simpl in Hmiddle; lia |].
    exists out. split; [|split; assumption].
    simpl in Hrun, Hmiddle.
    replace (length front + 1 - 1) with first in Hrun by lia.
    replace (length front) with first in Hrun by lia.
    replace (first + 1 + length rest) with last in Hrun by lia.
    rewrite <- Hrun, Hsplit. reflexivity.
Qed.

(** X11: [insertionSort] on a range that lies within the collection never
    traps and, given fuel for one round per position, returns: the
    elements of the range are rearranged so that none is less than the
    one before it, and the elements outside the range stay where they
    are. *)
Theorem insertionSort_sorts_range (elements : list Element)
    (range : Algorithm.Range) (fuel : nat) :
  Algorithm.startIndex range <= Algorithm.endIndex range ->
  Algorithm.endIndex range <= length elements ->
  Algorithm.endIndex range - Algorithm.startIndex range <= fuel ->
  exists sorted,
    Algorithm.insertionSort less fuel elements range
    = Some (Ret (firstn (Algorithm.startIndex range) elements
                 ++ sorted
                 ++ skipn (Algorithm.endIndex range) elements))
    /\ Permutation
         (firstn (Algorithm.endIndex range - Algorithm.startIndex range)
                 (skipn (Algorithm.startIndex range) elements))
         sorted
    /\ Sorted (fun a b => less b a = false) sorted.
Proof. exact (insertionSort_range_spec elements range (fuel := fuel)). Qed.

End InsertionSortProof.

Lemma Nat_ltb_asym (a b : nat) : Nat.ltb a b = true -> Nat.ltb b a = false.
Proof. rewrite Nat.ltb_lt, Nat.ltb_ge. lia. Qed.

Lemma insertionSort_sorts_range_witness :
  exists sorted,
    Algorithm.insertionSort Nat.ltb 4 [5; 3; 9; 1; 7; 2]
      {| Algorithm.startIndex := 1; Algorithm.endIndex := 5 |}
    = Some (Ret ([5] ++ sorted ++ [2]))
    /\ Sorted (fun a b => Nat.ltb b a = false) sorted.
Proof.
  destruct (@insertionSort_sorts_range nat Nat.ltb Nat_ltb_asym
              [5; 3; 9; 1; 7; 2]
              {| Algorithm.startIndex := 1; Algorithm.endIndex := 5 |} 4)
    as (sorted & Hrun & _ & Hsorted); simpl; try lia.
  exists sorted. split; [exact Hrun | exact Hsorted].
Defined.

Section PartitionProof.
Variable Element : Type.
Variable less : Element -> Element -> bool.
Hypothesis less_asym : forall a b, less a b = true -> less b a = false.

Lemma less_irrefl_of_asym (a : Element) : less a a = false.
Proof.
  destruct (less a a) eqn:Ha; [|reflexivity].
  pose proof (less_asym Ha). congruence.
Qed.

Lemma subscriptZ_of_nat (l : list Element) (k : nat) :
  Algorithm.subscriptZ l (Z.of_nat k) = Algorithm.subscript l k.
Proof.
  unfold Algorithm.subscriptZ.
  destruct (Z.ltb_spec (Z.of_nat k) 0); [lia|]. rewrite Nat2Z.id. reflexivity.
Qed.

Lemma subscript_Some (l : list Element) (k : nat) (e : Element) :
  nth_error l k = Some e -> Algorithm.subscript l k = Ret e.
Proof. unfold Algorithm.subscript. intros ->. reflexivity. Qed.

Lemma assign_atZ_of_nat (l : list Element) (k : nat) (v : Element) :
  k < length l ->
  Algorithm.assign_atZ l (Z.of_nat k) v = Ret (Algorithm.replace_at l k v).
Proof.
  intros Hk. unfold Algorithm.assign_atZ, Algorithm.assign_at.
  destruct (Z.ltb_spec (Z.of_nat k) 0); [lia|]. rewrite Nat2Z.id.
  destruct (Nat.ltb_spec k (length l)); [reflexivity | lia].
Qed.

Lemma replace_at_length (l : list Element) (k : nat) (v : Element) :
  k < length l -> length (Algorithm.replace_at l k v) = length l.
Proof.
  intros Hk. unfold Algorithm.replace_at.
  rewrite length_app, length_firstn. cbn [length]. rewrite length_skipn. lia.
Qed.

Lemma replace_at_nth (l : list Element) (k : nat) (v : Element) (m : nat) :
  k < length l ->
  nth_error (Algorithm.replace_at l k v) m
  = if Nat.eqb m k then Some v else nth_error l m.
Proof.
  intros Hk. unfold Algorithm.replace_at.
  destruct (Nat.eqb_spec m k) as [-> | Hne].
  - rewrite nth_error_app2 by (rewrite length_firstn; lia).
    rewrite length_firstn. replace (k - Nat.min k (length l)) with 0 by lia.
    reflexivity.
  - destruct (Nat.lt_ge_cases m k) as [Hlt | Hge].
    + rewrite nth_error_app1 by (rewrite length_firstn; lia).
      rewrite nth_error_firstn.
      destruct (Nat.ltb_spec m k); [reflexivity | lia].
    + rewrite nth_error_app2 by (rewrite length_firstn; lia).
      rewrite length_firstn. replace (Nat.min k (length l)) with k by lia.
      destruct (m - k) as [|d] eqn:Hd; [lia|]. cbn [nth_error].
      rewrite nth_error_skipn. f_equal. lia.
Qed.

Lemma swap_at_exchanged (l : list Element) (a b : nat) (x y : Element) :
  nth_error l a = Some x -> nth_error l b = Some y ->
  Algorithm.swap_at l (Z.of_nat a) (Z.of_nat b) = Ret (Algorithm.exchanged l a b x y).
Proof.
  intros Ha Hb. unfold Algorithm.swap_at.
  rewrite !subscriptZ_of_nat, (subscript_Some _ _ Ha), (subscript_Some _ _ Hb).
  assert (a < length l) by (apply nth_error_Some; congruence).
  assert (b < length l) by (apply nth_error_Some; congruence).
  rewrite assign_atZ_of_nat by assumption.
  rewrite assign_atZ_of_nat by (rewrite replace_at_length; assumption).
  reflexivity.
Qed.

Lemma exchanged_length (l : list Element) (a b : nat) (x y : Element) :
  a < length l -> b < length l -> length (Algorithm.exchanged l a b x y) = length l.
Proof.
  intros Ha Hb. unfold Algorithm.exchanged.
  rewrite !replace_at_length; rewrite ?replace_at_length; auto.
Qed.

Lemma exchanged_nth (l : list Element) (a b : nat) (x y : Element) (m : nat) :
  nth_error l a = Some x -> nth_error l b = Some y ->
  nth_error (Algorithm.exchanged l a b x y) m
  = if Nat.eqb m b then Some x
    else if Nat.eqb m a then Some y
    else nth_error l m.
Proof.
  intros Ha Hb.
  assert (a < length l) by (apply nth_error_Some; congruence).
  assert (b < length l) by (apply nth_error_Some; congruence).
  unfold Algorithm.exchanged.
  rewrite replace_at_nth by (rewrite replace_at_length; assumption).
  rewrite replace_at_nth by assumption. reflexivity.
Qed.

Lemma replace_at_middle (front : list Element) (h v : Element)
    (back : list Element) :
  Algorithm.replace_at (front ++ h :: back) (length front) v
  = front ++ v :: back.
Proof.
  apply nth_error_ext. intros m.
  rewrite replace_at_nth by (rewrite length_app; simpl; lia).
  destruct (Nat.eqb_spec m (length front)) as [-> | Hne].
  - rewrite nth_error_app2, Nat.sub_diag by lia. reflexivity.
  - destruct (Nat.lt_ge_cases m (length front)).
    + rewrite !nth_error_app1 by assumption. reflexivity.
    + rewrite !nth_error_app2 by assumption.
      destruct (m - length front) eqn:Hd; [lia | reflexivity].
Qed.

Lemma exchanged_Permutation_lt (l : list Element) (a b : nat) (x y : Element) :
  a < b -> nth_error l a = Some x -> nth_error l b = Some y ->
  Permutation l (Algorithm.exchanged l a b x y).
Proof.
  intros Hab Ha Hb.
  destruct (nth_error_split l a Ha) as (l1 & rest & -> & Hl1).
  rewrite nth_error_app2 in Hb by lia.
  destruct (b - length l1) as [|d] eqn:Hd; [lia|]. simpl in Hb.
  destruct (nth_error_split rest d Hb) as (l2 & l3 & -> & Hl2).
  unfold Algorithm.exchanged. rewrite <- Hl1, replace_at_middle.
  replace b with (length (l1 ++ y :: l2))
    by (rewrite length_app; simpl; lia).
  replace (l1 ++ y :: l2 ++ y :: l3) with ((l1 ++ y :: l2) ++ y :: l3)
    by (rewrite <- app_assoc; reflexivity).
  rewrite replace_at_middle, <- app_assoc. simpl.
  apply Permutation_app_head.
  apply Permutation_trans with (x :: y :: l2 ++ l3).
  - constructor. symmetry. apply Permutation_middle.
  - apply Permutation_trans with (y :: x :: l2 ++ l3); [constructor|].
    constructor. apply Permutation_middle.
Qed.

Lemma exchanged_Permutation (l : list Element) (a b : nat) (x y : Element) :
  nth_error l a = Some x -> nth_error l b = Some y ->
  Permutation l (Algorithm.exchanged l a b x y).
Proof.
  intros Ha Hb.
  destruct (Nat.lt_trichotomy a b) as [Hlt | [-> | Hgt]].
  - apply exchanged_Permutation_lt; assumption.
  - assert (x = y) by congruence. subst y.
    replace (Algorithm.exchanged l b b x x) with l; [apply Permutation_refl|].
    apply nth_error_ext. intros m. rewrite exchanged_nth by assumption.
    destruct (Nat.eqb_spec m b) as [-> | _]; [exact Ha | reflexivity].
  - replace (Algorithm.exchanged l a b x y) with (Algorithm.exchanged l b a y x).
    + apply exchanged_Permutation_lt; assumption.
    + apply nth_error_ext. intros m. rewrite !exchanged_nth by assumption.
      destruct (Nat.eqb_spec m a), (Nat.eqb_spec m b); try reflexivity.
      subst. lia.
Qed.

Lemma scan_up_spec (pivot : Element) (l : list Element) (j : nat) :
  forall (fuel i : nat),
    i <= j -> j < length l -> j - i < fuel ->
    exists i',
      Algorithm.scan_up less fuel l pivot (Z.of_nat i) (Z.of_nat j)
      = Some (Ret (Z.of_nat i'))
      /\ i <= i' <= S j
      /\ (forall k e, i <= k < i' -> nth_error l k = Some e ->
                      less e pivot = true)
      /\ (i' <= j -> exists e, nth_error l i' = Some e /\ less e pivot = false).
Proof.
  induction fuel as [|fuel IH]; intros i Hij Hj Hfuel; [lia|].
  destruct (nth_error l i) as [e|] eqn:He;
    [|apply nth_error_None in He; lia].
  cbn [Algorithm.scan_up].
  rewrite subscriptZ_of_nat, (subscript_Some _ _ He).
  destruct (less e pivot) eqn:Hless.
  - replace (Z.of_nat i + 1)%Z with (Z.of_nat (S i)) by lia.
    destruct (Z.ltb_spec (Z.of_nat j - Z.of_nat (S i)) 0) as [Hend | Hmore].
    + exists (S i). split; [reflexivity|]. split; [lia|]. split.
      * intros k e' Hk He'. assert (k = i) by lia. subst k. congruence.
      * intros Habs. lia.
    + destruct (IH (S i)) as (i' & Hrun & Hbounds & Hbelow & Hstop); try lia.
      exists i'. split; [exact Hrun|]. split; [lia|]. split; [|exact Hstop].
      intros k e' Hk He'. destruct (Nat.eq_dec k i) as [-> | Hne].
      * congruence.
      * apply (Hbelow k e'); [lia | exact He'].
  - exists i. split; [reflexivity|]. split; [lia|]. split.
    + intros k e' Hk. lia.
    + intros _. exists e. auto.
Qed.

Lemma scan_down_spec (pivot : Element) (l : list Element) (start : nat)
    (first : Element) :
  nth_error l start = Some first ->
  less pivot first = false ->
  forall (fuel j : nat),
    start <= j -> j < length l -> j - start < fuel ->
    exists j',
      Algorithm.scan_down less fuel l pivot (Z.of_nat j)
      = Some (Ret (Z.of_nat j'))
      /\ start <= j' <= j
      /\ (forall k e, j' < k <= j -> nth_error l k = Some e ->
                      less pivot e = true)
      /\ exists e, nth_error l j' = Some e /\ less pivot e = false.
Proof.
  intros Hfirst Hstop.
  induction fuel as [|fuel IH]; intros j Hsj Hj Hfuel; [lia|].
  destruct (nth_error l j) as [e|] eqn:He;
    [|apply nth_error_None in He; lia].
  cbn [Algorithm.scan_down].
  rewrite subscriptZ_of_nat, (subscript_Some _ _ He).
  destruct (less pivot e) eqn:Hless.
  - assert (j <> start) by (intros ->; congruence).
    replace (Z.of_nat j - 1)%Z with (Z.of_nat (j - 1)) by lia.
    destruct (IH (j - 1)) as (j' & Hrun & Hbounds & Habove & Hat); try lia.
    exists j'. split; [exact Hrun|]. split; [lia|]. split; [|exact Hat].
    intros k e' Hk He'. destruct (Nat.eq_dec k j) as [-> | Hne].
    + congruence.
    + apply (Habove k e'); [lia | exact He'].
  - exists j. split; [reflexivity|]. split; [lia|]. split.
    + intros k e' Hk. lia.
    + exists e. auto.
Qed.

Lemma partition_loop_spec (l0 : list Element) (pivot : Element)
    (first last : nat) :
  forall (fuel : nat) (l : list Element) (i j : nat),
    Algorithm.partitioned less l0 l pivot first last i j ->
    first <= j < last ->
    j + 2 <= fuel + first ->
    exists l' i',
      Algorithm.partition_loop less fuel l pivot (Z.of_nat i) (Z.of_nat j)
      = Some (Ret (l', Z.of_nat i'))
      /\ Algorithm.partitioned less l0 l' pivot first last i' (i' - 1).
Proof.
  induction fuel as [|fuel IH]; intros l i j Hinv Hj Hfuel; [lia|].
  destruct Hinv as (Hlen & Hperm & Hout & Hpivot & Hlast & Hi & Hleft & Hright).
  cbn [Algorithm.partition_loop].
  destruct (Z.geb_spec (Z.of_nat j - Z.of_nat i) 0) as [Hle | Hgt].
  - destruct (@scan_up_spec pivot l j fuel i)
      as (i1 & Hup & Hi1 & Hbelow & Hstop1); try lia.
    rewrite Hup.
    destruct (@scan_down_spec pivot l first pivot Hpivot
                (less_irrefl_of_asym pivot) fuel j)
      as (j1 & Hdown & Hj1 & Habove & (y & Hy & Hystop)); try lia.
    rewrite Hdown.
    destruct (Z.geb_spec (Z.of_nat j1 - Z.of_nat i1) 0) as [Hswap | Hdone].
    + destruct Hstop1 as (x & Hx & Hxstop); [lia|].
      rewrite (swap_at_exchanged _ _ _ Hx Hy).
      replace (Z.of_nat i1 + 1)%Z with (Z.of_nat (S i1)) by lia.
      replace (Z.of_nat j1 - 1)%Z with (Z.of_nat (j1 - 1)) by lia.
      assert (Hi1len : i1 < length l) by lia.
      assert (Hj1len : j1 < length l) by lia.
      apply IH; try lia.
      unfold Algorithm.partitioned.
      rewrite exchanged_length by assumption.
      split; [exact Hlen|].
      split; [eapply Permutation_trans;
              [exact Hperm | apply exchanged_Permutation; assumption]|].
      split.
      { intros k Hk. rewrite exchanged_nth by assumption.
        destruct (Nat.eqb_spec k j1); [lia|].
        destruct (Nat.eqb_spec k i1); [lia|]. apply Hout. exact Hk. }
      split.
      { rewrite exchanged_nth by assumption.
        destruct (Nat.eqb_spec first j1); [lia|].
        destruct (Nat.eqb_spec first i1); [lia|]. exact Hpivot. }
      split; [exact Hlast|]. split; [lia|]. split.
      * intros k e Hk. rewrite exchanged_nth by assumption.
        destruct (Nat.eqb_spec k j1) as [-> | Hnj].
        { intros [= <-]. assert (i1 = j1) by lia. subst i1. congruence. }
        destruct (Nat.eqb_spec k i1) as [-> | Hni].
        { intros [= <-]. exact Hystop. }
        intros He. destruct (Nat.lt_ge_cases k i) as [Hlow | Hhigh].
        { apply (Hleft k e); [lia | exact He]. }
        { apply less_asym. apply (Hbelow k e); [lia | exact He]. }
      * intros k e Hk. rewrite exchanged_nth by assumption.
        destruct (Nat.eqb_spec k j1) as [-> | Hnj].
        { intros [= <-]. exact Hxstop. }
        destruct (Nat.eqb_spec k i1) as [-> | Hni]; [lia|].
        intros He. destruct (Nat.le_gt_cases k j) as [Hlow | Hhigh].
        { apply less_asym. apply (Habove k e); [lia | exact He]. }
        { apply (Hright k e); [lia | exact He]. }
    + destruct fuel as [|fuel']; [lia|].
      cbn [Algorithm.partition_loop].
      destruct (Z.geb_spec (Z.of_nat j1 - Z.of_nat i1) 0); [lia|].
      exists l, i1. split; [reflexivity|].
      unfold Algorithm.partitioned.
      split; [exact Hlen|]. split; [exact Hperm|]. split; [exact Hout|].
      split; [exact Hpivot|]. split; [exact Hlast|]. split; [lia|]. split.
      * intros k e Hk He. destruct (Nat.lt_ge_cases k i) as [Hlow | Hhigh].
        { apply (Hleft k e); [lia | exact He]. }
        { apply less_asym. apply (Hbelow k e); [lia | exact He]. }
      * intros k e Hk He. destruct (Nat.le_gt_cases k j) as [Hlow | Hhigh].
        { apply less_asym. apply (Habove k e); [lia | exact He]. }
        { apply (Hright k e); [lia | exact He]. }
  - exists l, i. split; [reflexivity|].
    unfold Algorithm.partitioned.
    split; [exact Hlen|]. split; [exact Hperm|]. split; [exact Hout|].
    split; [exact Hpivot|]. split; [exact Hlast|]. split; [lia|].
    split; [exact Hleft|].
    intros k e Hk He. apply (Hright k e); [lia | exact He].
Qed.

Lemma firstn_same (l l' : list Element) (n : nat) :
  (forall k, k < n -> nth_error l' k = nth_error l k) ->
  firstn n l' = firstn n l.
Proof.
  intros Hsame. apply nth_error_ext. intros k.
  rewrite !nth_error_firstn.
  destruct (Nat.ltb_spec k n); [apply Hsame; assumption | reflexivity].
Qed.

Lemma skipn_same (l l' : list Element) (n : nat) :
  (forall k, n <= k -> nth_error l' k = nth_error l k) ->
  skipn n l' = skipn n l.
Proof.
  intros Hsame. apply nth_error_ext. intros k.
  rewrite !nth_error_skipn. apply Hsame. lia.
Qed.

Lemma Forall_slice (P : Element -> Prop) (l : list Element) (a b : nat) :
  (forall k e, a <= k < b -> nth_error l k = Some e -> P e) ->
  Forall P (firstn (b - a) (skipn a l)).
Proof.
  intros Hall. apply Forall_forall. intros e He.
  apply In_nth_error in He. destruct He as [k Hk].
  rewrite nth_error_firstn in Hk.
  destruct (Nat.ltb_spec k (b - a)); [|discriminate].
  rewrite nth_error_skipn in Hk. apply (Hall (a + k) e); [lia | exact Hk].
Qed.

Lemma skipn_nth (l : list Element) (m : nat) (e : Element) :
  nth_error l m = Some e -> skipn m l = e :: skipn (S m) l.
Proof.
  intros He. destruct (nth_error_split l m He) as (l1 & l2 & -> & Hm).
  assert (H1 : skipn m (l1 ++ e :: l2) = e :: l2).
  { rewrite skipn_app, <- Hm, skipn_all, Nat.sub_diag. reflexivity. }
  assert (H2 : skipn (S m) (l1 ++ e :: l2) = l2).
  { rewrite skipn_app, skipn_all2 by lia.
    replace (S m - length l1) with 1 by lia. reflexivity. }
  rewrite H1, H2. reflexivity.
Qed.

Lemma range_split (l : list Element) (a m b : nat) (e : Element) :
  a <= m -> m < b ->
  nth_error l m = Some e ->
  l = firstn a l
      ++ firstn (m - a) (skipn a l)
      ++ e :: firstn (b - S m) (skipn (S m) l)
      ++ skipn b l.
Proof.
  intros Ham Hmb He.
  rewrite <- (firstn_skipn a l) at 1. f_equal.
  rewrite <- (firstn_skipn (m - a) (skipn a l)) at 1. f_equal.
  rewrite skipn_skipn. replace (m - a + a) with m by lia.
  rewrite (skipn_nth _ _ He). f_equal.
  rewrite <- (firstn_skipn (b - S m) (skipn (S m) l)) at 1. f_equal.
  rewrite skipn_skipn. f_equal. lia.
Qed.

Lemma range_whole (l : list Element) (a b : nat) :
  a <= b ->
  l = firstn a l ++ firstn (b - a) (skipn a l) ++ skipn b l.
Proof.
  intros Hab.
  rewrite <- (firstn_skipn a l) at 1. f_equal.
  rewrite <- (firstn_skipn (b - a) (skipn a l)) at 1. f_equal.
  rewrite skipn_skipn. f_equal. lia.
Qed.

Lemma partition_range_spec (elements : list Element)
    (range : Algorithm.Range) (fuel : nat) :
  Algorithm.startIndex range < Algorithm.endIndex range ->
  Algorithm.endIndex range <= length elements ->
  Algorithm.endIndex range - Algorithm.startIndex range < fuel ->
  exists pivot below above,
    nth_error elements (Algorithm.startIndex range) = Some pivot
    /\ Algorithm.partition less fuel elements range
       = Some (Ret (firstn (Algorithm.startIndex range) elements
                    ++ below ++ pivot :: above
                    ++ skipn (Algorithm.endIndex range) elements,
                    Algorithm.startIndex range + length below))
    /\ Algorithm.partition_comparable less fuel elements range
       = Algorithm.partition less fuel elements range
    /\ Forall (fun e => less pivot e = false) below
    /\ Forall (fun e => less e pivot = false) above
    /\ Permutation
         (firstn (Algorithm.endIndex range - Algorithm.startIndex range)
                 (skipn (Algorithm.startIndex range) elements))
         (below ++ pivot :: above).
Proof.
  destruct range as [first last]. simpl. intros Horder Hbound Hfuel.
  destruct (nth_error elements first) as [pivot|] eqn:Hpivot;
    [|apply nth_error_None in Hpivot; lia].
  assert (Hinit : Algorithm.partitioned less elements elements pivot first last
                              (S first) (last - 1)).
  { unfold Algorithm.partitioned.
    split; [reflexivity|]. split; [apply Permutation_refl|].
    split; [reflexivity|]. split; [exact Hpivot|]. split; [exact Hbound|].
    split; [lia|]. split; intros k e Hk; lia. }
  destruct (@partition_loop_spec elements pivot first last fuel elements
              (S first) (last - 1) Hinit)
    as (l' & i' & Hloop & Hinv); try lia.
  destruct Hinv as (Hlen & Hperm & Hout & Hstart & Hlast & Hi & Hleft & Hright).
  assert (Hx : exists x, nth_error l' (i' - 1) = Some x).
  { destruct (nth_error l' (i' - 1)) eqn:Hx; [eauto|].
    apply nth_error_None in Hx. lia. }
  destruct Hx as [x Hx].
  set (l'' := Algorithm.exchanged l' (i' - 1) first x pivot).
  assert (Hrun : Algorithm.partition_body less fuel elements
                   {| Algorithm.startIndex := first;
                      Algorithm.endIndex := last |}
                 = Some (Ret (l'', i' - 1))).
  { unfold Algorithm.partition_body. simpl.
    rewrite (subscript_Some _ _ Hpivot).
    replace (Z.of_nat first + 1)%Z with (Z.of_nat (S first)) by lia.
    replace (Z.of_nat last - 1)%Z with (Z.of_nat (last - 1)) by lia.
    rewrite Hloop.
    replace (Z.of_nat i' - 1)%Z with (Z.of_nat (i' - 1)) by lia.
    rewrite (swap_at_exchanged _ _ _ Hx Hstart), Nat2Z.id. reflexivity. }
  assert (Hnth : forall m,
             nth_error l'' m
             = if Nat.eqb m first then Some x
               else if Nat.eqb m (i' - 1) then Some pivot
               else nth_error l' m).
  { intros m. unfold l''. apply exchanged_nth; assumption. }
  assert (Hidx : nth_error l'' (i' - 1) = Some pivot).
  { rewrite Hnth. destruct (Nat.eqb_spec (i' - 1) first) as [He | _];
      [rewrite He in Hx; congruence | rewrite Nat.eqb_refl; reflexivity]. }
  assert (Hlen'' : length l'' = length elements).
  { unfold l''. rewrite exchanged_length; lia. }
  set (below := firstn (i' - 1 - first) (skipn first l'')).
  set (above := firstn (last - S (i' - 1)) (skipn (S (i' - 1)) l'')).
  assert (Hshape : l'' = firstn first elements ++ below ++ pivot :: above
                         ++ skipn last elements).
  { rewrite (@range_split l'' first (i' - 1) last pivot) at 1; try lia;
      [|exact Hidx].
    fold below above. f_equal; [|f_equal; f_equal; f_equal].
    - apply firstn_same. intros k Hk. rewrite Hnth.
      destruct (Nat.eqb_spec k first); [lia|].
      destruct (Nat.eqb_spec k (i' - 1)); [lia|]. apply Hout. lia.
    - apply skipn_same. intros k Hk. rewrite Hnth.
      destruct (Nat.eqb_spec k first); [lia|].
      destruct (Nat.eqb_spec k (i' - 1)); [lia|]. apply Hout. lia. }
  assert (Hbelow_len : length below = i' - 1 - first).
  { unfold below. rewrite length_firstn, length_skipn. lia. }
  exists pivot, below, above.
  split; [reflexivity|].
  unfold Algorithm.partition, Algorithm.partition_comparable. simpl.
  destruct (Nat.eqb_spec first last); [lia|]. simpl.
  rewrite Hrun, <- Hshape, Hbelow_len.
  replace (first + (i' - 1 - first)) with (i' - 1) by lia.
  split; [reflexivity|]. split; [reflexivity|].
  split; [|split].
  - apply Forall_slice. intros k e Hk. rewrite Hnth.
    destruct (Nat.eqb_spec k first) as [-> | Hnf].
    + intros [= <-]. apply (Hleft (i' - 1) x); [lia | exact Hx].
    + destruct (Nat.eqb_spec k (i' - 1)); [lia|].
      intros He. apply (Hleft k e); [lia | exact He].
  - apply Forall_slice. intros k e Hk. rewrite Hnth.
    destruct (Nat.eqb_spec k first); [lia|].
    destruct (Nat.eqb_spec k (i' - 1)); [lia|].
    intros He. apply (Hright k e); [lia | exact He].
  - assert (Hall : Permutation elements l'').
    { eapply Permutation_trans; [exact Hperm|].
      apply exchanged_Permutation; assumption. }
    rewrite Hshape in Hall.
    rewrite (@range_whole elements first last) in Hall at 1 by lia.
    apply Permutation_app_inv_l in Hall.
    replace (below ++ pivot :: above ++ skipn last elements)
      with ((below ++ pivot :: above) ++ skipn last elements) in Hall
      by (rewrite <- app_assoc; reflexivity).
    apply Permutation_app_inv_r in Hall. exact Hall.
Qed.

(** X12: [partition] on a range that is not empty and lies within the
    collection never traps and returns, given fuel for one round per
    position: the pivot, the first element of the range, ends at the
    returned position; before it in the range nothing is above the
    pivot and after it nothing is below; the range holds the elements it
    held, and the rest of the collection is untouched.  The version for
    [Comparable] elements does the same. *)
Theorem partition_splits_range (elements : list Element)
    (range : Algorithm.Range) (fuel : nat) :
  Algorithm.startIndex range < Algorithm.endIndex range ->
  Algorithm.endIndex range <= length elements ->
  Algorithm.endIndex range - Algorithm.startIndex range < fuel ->
  exists pivot below above,
    nth_error elements (Algorithm.startIndex range) = Some pivot
    /\ Algorithm.partition less fuel elements range
       = Some (Ret (firstn (Algorithm.startIndex range) elements
                    ++ below ++ pivot :: above
                    ++ skipn (Algorithm.endIndex range) elements,
                    Algorithm.startIndex range + length below))
    /\ Algorithm.partition_comparable less fuel elements range
       = Algorithm.partition less fuel elements range
    /\ Forall (fun e => less pivot e = false) below
    /\ Forall (fun e => less e pivot = false) above
    /\ Permutation
         (firstn (Algorithm.endIndex range - Algorithm.startIndex range)
                 (skipn (Algorithm.startIndex range) elements))
         (below ++ pivot :: above).
Proof. exact (partition_range_spec elements range (fuel := fuel)). Qed.

Lemma replace_at_same (l : list Element) (k : nat) (x : Element) :
  nth_error l k = Some x -> Algorithm.replace_at l k x = l.
Proof.
  intros Hx.
  assert (Hk : k < length l) by (apply nth_error_Some; congruence).
  apply nth_error_ext. intros m. rewrite replace_at_nth by exact Hk.
  destruct (Nat.eqb_spec m k) as [-> | _]; congruence.
Qed.

(** X13: on an empty range [partition] with a [less] fails its precondition.
    The version for [Comparable] elements has none: on an empty range at
    a position of the collection it changes nothing and returns the
    start of the range, a position that the range does not hold; on the
    empty range at the end of the collection it traps reading the
    pivot. *)
Theorem partition_empty_range (elements : list Element)
    (position fuel : nat) :
  0 < fuel ->
  Algorithm.partition less fuel elements
    {| Algorithm.startIndex := position; Algorithm.endIndex := position |}
  = Some Trap
  /\ Algorithm.partition_comparable less fuel elements
       {| Algorithm.startIndex := position; Algorithm.endIndex := position |}
     = Some (if Nat.ltb position (length elements)
             then Ret (elements, position) else Trap).
Proof.
  intros Hfuel. split.
  - unfold Algorithm.partition. cbn [Algorithm.startIndex Algorithm.endIndex].
    rewrite Nat.eqb_refl. reflexivity.
  - unfold Algorithm.partition_comparable, Algorithm.partition_body.
    cbn [Algorithm.startIndex Algorithm.endIndex].
    destruct (Nat.ltb_spec position (length elements)) as [Hin | Hout].
    + destruct (nth_error elements position) as [pivot|] eqn:Hpivot;
        [|apply nth_error_None in Hpivot; lia].
      rewrite (subscript_Some _ _ Hpivot).
      destruct fuel as [|fuel']; [lia|]. cbn [Algorithm.partition_loop].
      destruct (Z.geb_spec (Z.of_nat position - 1 - (Z.of_nat position + 1)) 0)
        as [Hge | _]; [lia|].
      replace (Z.of_nat position + 1 - 1)%Z with (Z.of_nat position) by lia.
      rewrite (@swap_at_exchanged elements position position pivot pivot
                 Hpivot Hpivot).
      unfold Algorithm.exchanged.
      rewrite !(@replace_at_same elements position pivot Hpivot).
      rewrite Nat2Z.id. reflexivity.
    + unfold Algorithm.subscript.
      replace (nth_error elements position) with (@None Element)
        by (symmetry; apply nth_error_None; exact Hout).
      reflexivity.
Qed.

End PartitionProof.

Lemma partition_splits_range_witness :
  exists pivot below above,
    Algorithm.partition Nat.ltb 5 [5; 3; 9; 1; 7; 2]
      {| Algorithm.startIndex := 1; Algorithm.endIndex := 5 |}
    = Some (Ret ([5] ++ below ++ pivot :: above ++ [2], 1 + length below))
    /\ Forall (fun e => Nat.ltb pivot e = false) below
    /\ Forall (fun e => Nat.ltb e pivot = false) above.
Proof.
  destruct (@partition_splits_range nat Nat.ltb Nat_ltb_asym
              [5; 3; 9; 1; 7; 2]
              {| Algorithm.startIndex := 1; Algorithm.endIndex := 5 |} 5)
    as (pivot & below & above & _ & Hrun & _ & Hbelow & Habove & _);
    simpl; try lia.
  exists pivot, below, above. split; [exact Hrun|]. split; assumption.
Defined.

Lemma partition_empty_range_witness :
  Algorithm.partition Nat.ltb 1 [5; 3; 9]
    {| Algorithm.startIndex := 1; Algorithm.endIndex := 1 |}
  = Some Trap
  /\ Algorithm.partition_comparable Nat.ltb 1 [5; 3; 9]
       {| Algorithm.startIndex := 1; Algorithm.endIndex := 1 |}
     = Some (Ret ([5; 3; 9], 1)).
Proof.
  apply (@partition_empty_range nat Nat.ltb [5; 3; 9] 1 1). lia.
Defined.

Section QuickSortProof.
Variable Element : Type.
Variable less : Element -> Element -> bool.
Hypothesis less_asym : forall a b, less a b = true -> less b a = false.

Lemma Sorted_snoc (R : Element -> Element -> Prop) (l : list Element)
    (x : Element) :
  Sorted R l -> Forall (fun e => R e x) l -> Sorted R (l ++ [x]).
Proof.
  induction l as [|a l IH]; simpl; intros Hs Hall.
  - repeat constructor.
  - inversion Hs as [|? ? Hrest Hhd]; subst.
    inversion Hall as [|? ? Hax Hall']; subst.
    constructor; [apply IH; assumption|].
    destruct l as [|b l]; simpl; constructor.
    + exact Hax.
    + inversion Hhd; subst. assumption.
Qed.

Lemma Sorted_around (l1 : list Element) (pivot : Element)
    (l2 : list Element) :
  Sorted (fun a b => less b a = false) l1 ->
  Sorted (fun a b => less b a = false) l2 ->
  Forall (fun e => less pivot e = false) l1 ->
  Forall (fun e => less e pivot = false) l2 ->
  Sorted (fun a b => less b a = false) (l1 ++ pivot :: l2).
Proof.
  intros H1 H2 Hlow Hhigh.
  apply Sorted_app_join.
  - apply Sorted_snoc; assumption.
  - constructor; [exact H2|].
    destruct l2 as [|b l2]; constructor.
    inversion Hhigh; subst. assumption.
Qed.

Lemma app3_parts (a b c : list Element) :
  firstn (length a) (a ++ b ++ c) = a
  /\ firstn (length b) (skipn (length a) (a ++ b ++ c)) = b
  /\ skipn (length a + length b) (a ++ b ++ c) = c.
Proof.
  assert (H1 : skipn (length a) (a ++ b ++ c) = b ++ c).
  { rewrite skipn_app, skipn_all, Nat.sub_diag. reflexivity. }
  split; [|split].
  - rewrite firstn_app, firstn_all, Nat.sub_diag. simpl. apply app_nil_r.
  - rewrite H1, firstn_app, firstn_all, Nat.sub_diag. simpl. apply app_nil_r.
  - replace (length a + length b) with (length b + length a) by lia.
    rewrite <- skipn_skipn, H1.
    rewrite skipn_app, skipn_all, Nat.sub_diag. reflexivity.
Qed.

Lemma quickSort_spec :
  forall (fuel : nat) (elements : list Element) (range : Algorithm.Range),
    Algorithm.startIndex range <= Algorithm.endIndex range ->
    Algorithm.endIndex range <= length elements ->
    Algorithm.endIndex range - Algorithm.startIndex range + 2 <= fuel ->
    exists sorted,
      Algorithm._quickSort less fuel elements range
      = Some (Ret (firstn (Algorithm.startIndex range) elements
                   ++ sorted
                   ++ skipn (Algorithm.endIndex range) elements))
      /\ Permutation
           (firstn (Algorithm.endIndex range - Algorithm.startIndex range)
                   (skipn (Algorithm.startIndex range) elements))
           sorted
      /\ Sorted (fun a b => less b a = false) sorted.
Proof.
  induction fuel as [|fuel IH]; intros elements [first last]; simpl;
    intros Horder Hbound Hfuel; [lia|].
  destruct (Z.ltb_spec (Z.of_nat last - Z.of_nat first) 20) as [Hsmall | Hbig].
  - apply (@insertionSort_range_spec Element less less_asym elements
             {| Algorithm.startIndex := first; Algorithm.endIndex := last |});
      simpl; lia.
  - destruct (@partition_range_spec Element less less_asym elements
                {| Algorithm.startIndex := first; Algorithm.endIndex := last |}
                fuel)
      as (pivot & below & above & Hpivot & Hpart & _ & Hlow & Hhigh & Hperm);
      simpl; try lia.
    simpl in Hpart, Hperm. rewrite Hpart.
    set (front := firstn first elements) in *.
    set (back := skipn last elements) in *.
    assert (Hfront : length front = first)
      by (unfold front; rewrite length_firstn; lia).
    assert (Hmid : length (below ++ pivot :: above) = last - first).
    { rewrite <- (Permutation_length Hperm), length_firstn, length_skipn. lia. }
    rewrite length_app in Hmid. simpl in Hmid.
    assert (Hback : length back = length elements - last)
      by (unfold back; apply length_skipn).
    (* the range below the pivot *)
    set (l1 := front ++ below ++ pivot :: above ++ back).
    destruct (app3_parts front below (pivot :: above ++ back))
      as (Hf1 & Hb1 & Hs1).
    fold l1 in Hf1, Hb1, Hs1. rewrite Hfront in Hf1, Hb1, Hs1.
    destruct (IH l1 {| Algorithm.startIndex := first;
                       Algorithm.endIndex := first + length below |})
      as (sortedL & HrunL & HpermL & HsortedL); simpl; try lia.
    { unfold l1. rewrite !length_app. simpl. rewrite !length_app. lia. }
    cbn [Algorithm.startIndex Algorithm.endIndex] in HrunL, HpermL.
    replace (first + length below - first) with (length below) in HpermL by lia.
    rewrite Hf1, Hs1 in HrunL. rewrite Hb1 in HpermL.
    cbv zeta. rewrite HrunL.
    (* the range above the pivot *)
    set (l2 := front ++ sortedL ++ pivot :: above ++ back) in *.
    assert (HlenL : length sortedL = length below)
      by (symmetry; apply Permutation_length; exact HpermL).
    destruct (app3_parts (front ++ sortedL ++ [pivot]) above back)
      as (Hf2 & Hb2 & Hs2).
    replace ((front ++ sortedL ++ [pivot]) ++ above ++ back) with l2
      in Hf2, Hb2, Hs2
      by (unfold l2; rewrite <- !app_assoc; reflexivity).
    assert (Hlen2 : length (front ++ sortedL ++ [pivot])
                    = S (first + length below)).
    { rewrite !length_app. simpl. lia. }
    rewrite Hlen2 in Hf2, Hb2, Hs2.
    destruct (IH l2 {| Algorithm.startIndex := S (first + length below);
                       Algorithm.endIndex := last |})
      as (sortedR & HrunR & HpermR & HsortedR); simpl; try lia.
    { unfold l2. rewrite !length_app. simpl. rewrite !length_app. lia. }
    cbn [Algorithm.startIndex Algorithm.endIndex] in HrunR, HpermR.
    replace (last - S (first + length below)) with (length above)
      in HpermR by lia.
    replace (S (first + length below) + length above) with last
      in Hs2 by lia.
    rewrite Hf2, Hs2 in HrunR. rewrite Hb2 in HpermR.
    exists (sortedL ++ pivot :: sortedR).
    split; [|split].
    + rewrite HrunR. rewrite <- !app_assoc. reflexivity.
    + eapply Permutation_trans; [exact Hperm|].
      apply Permutation_app; [exact HpermL|].
      constructor. exact HpermR.
    + apply Sorted_around; try assumption.
      * eapply Permutation_Forall; [exact HpermL | exact Hlow].
      * eapply Permutation_Forall; [exact HpermR | exact Hhigh].
Qed.

(** X14: [sort] and [sorted] never trap and return, given fuel for one round
    per element and two more: the result holds the elements of the
    collection, arranged so that none is less than the one before
    it. *)
Theorem sort_sorts (collection : list Element) (fuel : nat) :
  length collection + 2 <= fuel ->
  exists result,
    Algorithm.sort less fuel collection = Some (Ret result)
    /\ Algorithm.sorted less fuel collection = Some (Ret result)
    /\ Permutation collection result
    /\ Sorted (fun a b => less b a = false) result.
Proof.
  intros Hfuel.
  destruct (@quickSort_spec fuel collection
              {| Algorithm.startIndex := 0;
                 Algorithm.endIndex := length collection |})
    as (result & Hrun & Hperm & Hsorted); simpl; try lia.
  simpl in Hrun, Hperm.
  rewrite skipn_all, app_nil_r in Hrun.
  rewrite Nat.sub_0_r, firstn_all in Hperm.
  exists result. unfold Algorithm.sorted, Algorithm.sort, Algorithm.quickSort.
  auto.
Qed.

End QuickSortProof.

Lemma sort_sorts_witness :
  exists result,
    Algorithm.sort Nat.ltb 8 [5; 3; 9; 1; 7; 2] = Some (Ret result)
    /\ Algorithm.sorted Nat.ltb 8 [5; 3; 9; 1; 7; 2] = Some (Ret result)
    /\ Permutation [5; 3; 9; 1; 7; 2] result
    /\ Sorted (fun a b => Nat.ltb b a = false) result.
Proof.
  apply (@sort_sorts nat Nat.ltb Nat_ltb_asym [5; 3; 9; 1; 7; 2] 8).
  simpl. lia.
Defined.

(** ** [split] *)

Section SplitProof.
Variable Element : Type.
Variable isSeparator : Element -> bool.

Lemma slice_prefix (pre suffix : list Element) i :
  i <= length pre ->
  Algorithm.slice (pre ++ suffix) i (length pre) = skipn i pre.
Proof.
  intros Hi. unfold Algorithm.slice.
  rewrite skipn_app. replace (i - length pre) with 0 by lia.
  rewrite skipn_O, firstn_app, length_skipn, Nat.sub_diag, firstn_O, app_nil_r.
  apply firstn_all2. rewrite length_skipn. lia.
Qed.

Lemma slice_whole_prefix (l : list Element) i :
  i <= length l -> Algorithm.slice l i (length l) = skipn i l.
Proof.
  intros Hi. rewrite <- (app_nil_r l) at 1.
  apply slice_prefix. exact Hi.
Qed.

Lemma snoc_assoc (pre : list Element) e rest :
  pre ++ e :: rest = (pre ++ [e]) ++ rest.
Proof. rewrite <- app_assoc. reflexivity. Qed.

Lemma skipn_snoc (pre : list Element) e i :
  i <= length pre -> skipn i (pre ++ [e]) = skipn i pre ++ [e].
Proof.
  intros Hi. rewrite skipn_app. replace (i - length pre) with 0 by lia.
  reflexivity.
Qed.

Lemma length_snoc (pre : list Element) e :
  length (pre ++ [e]) = S (length pre).
Proof. rewrite length_app. cbn [length]. lia. Qed.

Lemma split_loop_slices (maxSplit : Z) (allowEmptySlices : bool) :
  forall suffix pre acc o n,
    match o with Some i => i <= length pre | None => True end ->
    exists st,
      Algorithm.split_loop isSeparator (seq (length pre) (length suffix))
        (pre ++ suffix) maxSplit allowEmptySlices
        {| Algorithm.result := acc;
           Algorithm.splitStart := o;
           Algorithm.splits := n |} = Ret st /\
      Algorithm.split_outcome (pre ++ suffix) st =
      acc ++ Algorithm.slices isSeparator allowEmptySlices maxSplit n
               (option_map (fun i => skipn i pre) o) suffix.
Proof.
  induction suffix as [|e rest IH]; intros pre acc o n Ho.
  - exists {| Algorithm.result := acc;
              Algorithm.splitStart := o;
              Algorithm.splits := n |}.
    split; [reflexivity|].
    unfold Algorithm.split_outcome.
    cbn [Algorithm.result Algorithm.splitStart].
    destruct o as [i|]; cbn [option_map Algorithm.slices].
    + rewrite app_nil_r. rewrite slice_whole_prefix by lia. reflexivity.
    + rewrite app_nil_r. reflexivity.
  - cbn [length seq Algorithm.split_loop].
    rewrite subscript_app_head.
    cbn [Algorithm.splitStart Algorithm.result Algorithm.splits
         Algorithm.slices].
    destruct (isSeparator e) eqn:He.
    + destruct o as [i|]; cbn [option_map].
      * rewrite slice_prefix by lia.
        destruct (Z.geb_spec (n + 1) maxSplit) as [Hge|Hlt].
        -- eexists. split; [reflexivity|].
           unfold Algorithm.split_outcome.
           cbn [Algorithm.result Algorithm.splitStart].
           rewrite slice_whole_prefix
             by (rewrite length_app; cbn [length]; lia).
           rewrite snoc_assoc at 1. rewrite <- length_snoc with (e := e).
           rewrite skipn_app, skipn_all, Nat.sub_diag, skipn_O.
           rewrite <- app_assoc. reflexivity.
        -- destruct (IH (pre ++ [e]) (acc ++ [skipn i pre])
                       (if negb allowEmptySlices then None
                        else Some (S (length pre))) (n + 1)%Z)
             as (st & Hrun & Hres).
           { destruct allowEmptySlices; cbn [negb];
               [rewrite length_snoc; lia | exact I]. }
           exists st.
           rewrite length_snoc in Hrun.
           rewrite <- snoc_assoc in Hrun, Hres.
           split; [exact Hrun|].
           rewrite Hres, <- app_assoc. cbn [app].
           destruct allowEmptySlices; cbn [negb option_map];
             [|reflexivity].
           rewrite <- length_snoc with (e := e), skipn_all. reflexivity.
      * destruct (IH (pre ++ [e]) acc None n) as (st & Hrun & Hres).
        { exact I. }
        exists st.
        rewrite length_snoc in Hrun.
        rewrite <- snoc_assoc in Hrun, Hres.
        split; [exact Hrun|]. exact Hres.
    + destruct o as [i|]; cbn [option_map].
      * destruct (IH (pre ++ [e]) acc (Some i) n) as (st & Hrun & Hres).
        { rewrite length_snoc. lia. }
        exists st.
        rewrite length_snoc in Hrun.
        rewrite <- snoc_assoc in Hrun, Hres.
        split; [exact Hrun|].
        rewrite Hres. cbn [option_map]. rewrite skipn_snoc by lia.
        reflexivity.
      * destruct (IH (pre ++ [e]) acc (Some (length pre)) n)
          as (st & Hrun & Hres).
        { rewrite length_snoc. lia. }
        exists st.
        rewrite length_snoc in Hrun.
        rewrite <- snoc_assoc in Hrun, Hres.
        split; [exact Hrun|].
        rewrite Hres. cbn [option_map]. rewrite skipn_snoc by lia.
        rewrite skipn_all. reflexivity.
Qed.

Lemma split_slices (seq : list Element) (maxSplit : Z)
    (allowEmptySlices : bool) :
  Algorithm.split isSeparator seq maxSplit allowEmptySlices =
  Ret (Algorithm.slices isSeparator allowEmptySlices maxSplit 0
         (if allowEmptySlices then Some [] else None) seq).
Proof.
  unfold Algorithm.split, Algorithm.indices.
  destruct (@split_loop_slices maxSplit allowEmptySlices seq [] []
              (if allowEmptySlices then Some 0 else None) 0%Z)
    as (st & Hrun & Hres).
  { destruct allowEmptySlices; cbn [length]; [lia | exact I]. }
  cbn [length app] in Hrun, Hres.
  rewrite Hrun. unfold Algorithm.split_outcome in Hres.
  replace (option_map (fun i => skipn i (@nil Element))
             (if allowEmptySlices then Some 0 else None))
    with (if allowEmptySlices then Some (@nil Element) else None) in Hres
    by (destruct allowEmptySlices; reflexivity).
  destruct (Algorithm.splitStart st); rewrite Hres; reflexivity.
Qed.

Lemma slices_join (maxSplit : Z) :
  forall l current n,
    (n + Z.of_nat (length (filter isSeparator l)) < maxSplit)%Z ->
    Forall (fun e => isSeparator e = false) current ->
    let r := Algorithm.slices isSeparator true maxSplit n (Some current) l in
    length r = S (length (filter isSeparator l)) /\
    Forall (Forall (fun e => isSeparator e = false)) r /\
    Algorithm.join r (filter isSeparator l) = current ++ l.
Proof.
  induction l as [|e rest IH]; intros current n Hn Hcur; cbv zeta.
  - cbn [Algorithm.slices Algorithm.join length filter].
    rewrite app_nil_r. repeat split; auto.
  - cbn [Algorithm.slices filter] in *. destruct (isSeparator e) eqn:He.
    + cbn [length] in Hn.
      destruct (Z.geb_spec (n + 1) maxSplit) as [Hge|Hlt]; [lia|].
      destruct (IH [] (n + 1)%Z) as (Hlen & Hall & Hjoin); [lia|auto|].
      cbn [length Algorithm.join].
      rewrite Hjoin, Hlen. repeat split; auto.
    + destruct (IH (current ++ [e]) n) as (Hlen & Hall & Hjoin); [lia| |].
      { apply Forall_app. split; [exact Hcur|]. constructor; auto. }
      rewrite Hjoin, <- app_assoc. repeat split; auto.
Qed.

Lemma slices_drop_empty (maxSplit : Z) :
  forall l n n',
    (n + Z.of_nat (length (filter isSeparator l)) < maxSplit)%Z ->
    (n' + Z.of_nat (length (filter isSeparator l)) < maxSplit)%Z ->
    (forall c, c <> [] ->
       Algorithm.slices isSeparator false maxSplit n (Some c) l =
       filter (@Algorithm.nonEmptySlice Element)
         (Algorithm.slices isSeparator true maxSplit n' (Some c) l)) /\
    Algorithm.slices isSeparator false maxSplit n None l =
    filter (@Algorithm.nonEmptySlice Element)
      (Algorithm.slices isSeparator true maxSplit n' (Some []) l).
Proof.
  induction l as [|e rest IH]; intros n n' Hn Hn'.
  - split.
    + intros c Hc. destruct c; [congruence|]. reflexivity.
    + reflexivity.
  - cbn [filter] in Hn, Hn'. cbn [Algorithm.slices].
    destruct (isSeparator e) eqn:He.
    + cbn [length] in Hn, Hn'.
      destruct (Z.geb_spec (n + 1) maxSplit) as [Hge|Hlt]; [lia|].
      destruct (Z.geb_spec (n' + 1) maxSplit) as [Hge'|Hlt']; [lia|].
      split.
      * intros c Hc. cbn [filter]. destruct c; [congruence|].
        cbn [Algorithm.nonEmptySlice].
        destruct (IH (n + 1)%Z (n' + 1)%Z) as [_ IHnone]; [lia|lia|].
        rewrite IHnone. reflexivity.
      * cbn [filter Algorithm.nonEmptySlice].
        destruct (IH n (n' + 1)%Z) as [_ IHnone]; [lia|lia|].
        exact IHnone.
    + destruct (IH n n') as [IHsome _]; [lia|lia|].
      split.
      * intros c Hc. apply IHsome. destruct c; discriminate.
      * cbn [app]. apply IHsome. discriminate.
Qed.

Lemma slices_skip_separators (maxSplit : Z) (allowEmptySlices : bool) :
  forall lead l n,
    Forall (fun p => isSeparator p = true) lead ->
    Algorithm.slices isSeparator allowEmptySlices maxSplit n None (lead ++ l) =
    Algorithm.slices isSeparator allowEmptySlices maxSplit n None l.
Proof.
  induction lead as [|p lead IH]; intros l n Hlead; [reflexivity|].
  inversion Hlead as [|? ? Hp Hrest]; subst.
  cbn [app Algorithm.slices]. rewrite Hp. apply IH. exact Hrest.
Qed.

Lemma slices_collect (maxSplit : Z) (allowEmptySlices : bool) :
  forall run c l n,
    Forall (fun e => isSeparator e = false) run ->
    Algorithm.slices isSeparator allowEmptySlices maxSplit n (Some c)
      (run ++ l) =
    Algorithm.slices isSeparator allowEmptySlices maxSplit n
      (Some (c ++ run)) l.
Proof.
  induction run as [|e run IH]; intros c l n Hrun.
  - rewrite app_nil_r. reflexivity.
  - inversion Hrun as [|? ? He Hrest]; subst.
    cbn [app Algorithm.slices]. rewrite He.
    rewrite IH by exact Hrest. rewrite <- app_assoc. reflexivity.
Qed.

Lemma slices_bounded (maxSplit : Z) (allowEmptySlices : bool) :
  forall l n current,
    (n < Z.max maxSplit 1)%Z ->
    (Z.of_nat (length (Algorithm.slices isSeparator allowEmptySlices
                         maxSplit n current l))
     <= Z.max maxSplit 1 - n + 1)%Z.
Proof.
  induction l as [|e rest IH]; intros n current Hn.
  - cbn [Algorithm.slices]. destruct current; cbn [length]; lia.
  - cbn [Algorithm.slices]. destruct (isSeparator e).
    + destruct current as [c|].
      * destruct (Z.geb_spec (n + 1) maxSplit) as [Hge|Hlt].
        -- cbn [length]. lia.
        -- cbn [length].
           specialize (IH (n + 1)%Z
                         (if allowEmptySlices then Some [] else None)).
           lia.
      * apply IH. exact Hn.
    + apply IH. exact Hn.
Qed.

(** X15: splitting with empty slices kept loses nothing.  When [maxSplit] is
    above the number of separators, [split] returns one slice more than
    there are separators, no slice holds a separator, and joining the
    slices with the separators gives the sequence back. *)
Theorem split_join_roundtrip (seq : list Element) (maxSplit : Z) :
  (Z.of_nat (length (filter isSeparator seq)) < maxSplit)%Z ->
  exists slices,
    Algorithm.split isSeparator seq maxSplit true = Ret slices /\
    length slices = S (length (filter isSeparator seq)) /\
    Forall (Forall (fun e => isSeparator e = false)) slices /\
    Algorithm.join slices (filter isSeparator seq) = seq.
Proof.
  intros Hmax.
  exists (Algorithm.slices isSeparator true maxSplit 0 (Some []) seq).
  split; [apply split_slices|].
  apply (@slices_join maxSplit seq [] 0%Z); [lia | constructor].
Qed.

(** X16: without [allowEmptySlices], [split] returns the slices it returns
    with it, the empty ones left out (when [maxSplit] is above the number
    of separators). *)
Theorem split_drops_empty_slices (seq : list Element) (maxSplit : Z) :
  (Z.of_nat (length (filter isSeparator seq)) < maxSplit)%Z ->
  exists slices,
    Algorithm.split isSeparator seq maxSplit true = Ret slices /\
    Algorithm.split isSeparator seq maxSplit false =
    Ret (filter (@Algorithm.nonEmptySlice Element) slices).
Proof.
  intros Hmax.
  exists (Algorithm.slices isSeparator true maxSplit 0 (Some []) seq).
  split; [apply split_slices|].
  rewrite split_slices. f_equal.
  apply (@slices_drop_empty maxSplit seq 0%Z 0%Z); lia.
Qed.

(** X17: a [maxSplit] of one or less still splits once, at the first
    separator that ends a slice, and the rest of the sequence is returned
    as the last slice untouched: it may hold separators, and it may be
    empty even without [allowEmptySlices]. *)
Theorem split_stops_at_limit (lead field post : list Element) (p : Element)
    (maxSplit : Z) :
  (maxSplit <= 1)%Z ->
  Forall (fun e => isSeparator e = true) lead ->
  Forall (fun e => isSeparator e = false) field ->
  isSeparator p = true ->
  (field <> [] ->
   Algorithm.split isSeparator (lead ++ field ++ p :: post) maxSplit false =
   Ret [field; post]) /\
  Algorithm.split isSeparator (field ++ p :: post) maxSplit true =
  Ret [field; post].
Proof.
  intros Hmax Hlead Hfield Hp. split.
  - intros Hne. rewrite split_slices. f_equal.
    rewrite slices_skip_separators by exact Hlead.
    destruct field as [|f fs]; [congruence|].
    inversion Hfield as [|? ? Hf Hfs]; subst.
    cbn [app Algorithm.slices]. rewrite Hf.
    rewrite slices_collect by exact Hfs.
    cbn [Algorithm.slices app]. rewrite Hp.
    destruct (Z.geb_spec (0 + 1) maxSplit) as [_|Hlt]; [reflexivity | lia].
  - rewrite split_slices. f_equal.
    rewrite slices_collect by exact Hfield.
    cbn [Algorithm.slices app]. rewrite Hp.
    destruct (Z.geb_spec (0 + 1) maxSplit) as [_|Hlt]; [reflexivity | lia].
Qed.

(** X18: [split] always returns, and with at most [maxSplit + 1] slices; a
    [maxSplit] below one counts as one. *)
Theorem split_count_bounded (seq : list Element) (maxSplit : Z)
    (allowEmptySlices : bool) :
  exists slices,
    Algorithm.split isSeparator seq maxSplit allowEmptySlices = Ret slices /\
    (Z.of_nat (length slices) <= Z.max maxSplit 1 + 1)%Z.
Proof.
  eexists. split; [apply split_slices|].
  pose proof (@slices_bounded maxSplit allowEmptySlices seq 0%Z
                (if allowEmptySlices then Some [] else None)) as H.
  lia.
Qed.

End SplitProof.

Lemma split_join_roundtrip_witness :
  exists slices,
    Algorithm.split (Nat.eqb 0) [1; 2; 0; 0; 3; 0] 9 true = Ret slices /\
    length slices = 4 /\
    Forall (Forall (fun e => Nat.eqb 0 e = false)) slices /\
    Algorithm.join slices [0; 0; 0] = [1; 2; 0; 0; 3; 0].
Proof.
  apply (@split_join_roundtrip nat (Nat.eqb 0) [1; 2; 0; 0; 3; 0] 9%Z).
  vm_compute. reflexivity.
Defined.

Lemma split_drops_empty_slices_witness :
  exists slices,
    Algorithm.split (Nat.eqb 0) [1; 2; 0; 0; 3; 0] 9 true = Ret slices /\
    Algorithm.split (Nat.eqb 0) [1; 2; 0; 0; 3; 0] 9 false =
    Ret (filter (@Algorithm.nonEmptySlice nat) slices).
Proof.
  apply (@split_drops_empty_slices nat (Nat.eqb 0) [1; 2; 0; 0; 3; 0] 9%Z).
  vm_compute. reflexivity.
Defined.

Lemma split_stops_at_limit_witness :
  Algorithm.split (Nat.eqb 0) [0; 1; 2; 0; 0; 3; 0] 0 false =
  Ret [[1; 2]; [0; 3; 0]].
Proof.
  refine (proj1 (@split_stops_at_limit nat (Nat.eqb 0) [0] [1; 2] [0; 3; 0] 0
                   0%Z _ _ _ _) _).
  - lia.
  - repeat constructor.
  - repeat constructor.
  - reflexivity.
  - discriminate.
Defined.

(* ================================================================== *)
(** * Part IV: further properties of the solver steps                  *)
(* ================================================================== *)

(** ** [getBestScore] *)

Section BestScoreLeast.
Context `{SolverTypes}.
Variable getFixedScore : Solution -> Score.
Variable Score_lt : Score -> Score -> bool.
Hypothesis Score_lt_irrefl : forall a, Score_lt a a = false.
Hypothesis Score_lt_trans :
  forall a b c, Score_lt a b = true -> Score_lt b c = true ->
                Score_lt a c = true.

Lemma bestScore_loop_fold (suffix : list Solution) :
  forall (visited : list Solution) (bestScore : Score),
    DisjunctionStep.bestScore_loop getFixedScore Score_lt
      (seq (length visited) (length suffix)) (visited ++ suffix) bestScore
    = Ret (fold_left (fun best score =>
                        if Score_lt score best then score else best)
                     (map getFixedScore suffix) bestScore).
Proof.
  induction suffix as [|solution suffix IH]; intros visited bestScore;
    [reflexivity|].
  simpl. unfold DisjunctionStep.vector_at.
  rewrite nth_error_app2, Nat.sub_diag by lia. simpl.
  specialize (IH (visited ++ [solution])).
  rewrite length_app, Nat.add_1_r, <- app_assoc in IH. apply IH.
Qed.

(** X19: [getBestScore] fails its assertion on an empty vector.  On any other
    it returns a score, never [None]: the fixed score of one of the
    solutions, below which no solution's fixed score lies. *)
Theorem getBestScore_least (solutions : list Solution) :
  (solutions = [] ->
   DisjunctionStep.getBestScore getFixedScore Score_lt solutions = Trap)
  /\ (solutions <> [] ->
      exists best,
        DisjunctionStep.getBestScore getFixedScore Score_lt solutions
        = Ret (Some best)
        /\ In best (map getFixedScore solutions)
        /\ forall solution, In solution solutions ->
                            Score_lt (getFixedScore solution) best = false).
Proof.
  split; [intros ->; reflexivity|].
  destruct solutions as [|front rest]; [congruence|]. intros _.
  pose proof (@fold_keepMin Score Score_lt Score_lt_irrefl Score_lt_trans
                (map getFixedScore rest) (getFixedScore front)
                [getFixedScore front]) as Hfold.
  destruct Hfold as [Hin Hleast];
    [left; reflexivity | intros x [<- | []]; apply Score_lt_irrefl |].
  exists (fold_left (fun best score =>
                       if Score_lt score best then score else best)
                    (map getFixedScore rest) (getFixedScore front)).
  split; [|split].
  - unfold DisjunctionStep.getBestScore.
    destruct rest as [|second rest]; [reflexivity|].
    cbn [length Nat.eqb Nat.sub].
    change (S (length rest)) with (length (second :: rest)).
    change (front :: second :: rest) with ([front] ++ second :: rest) at 1.
    change 1 with (length [front]) at 1.
    rewrite bestScore_loop_fold. reflexivity.
  - exact Hin.
  - intros solution Hsolution. apply Hleast.
    change (In (getFixedScore solution) (map getFixedScore (front :: rest))).
    apply in_map. exact Hsolution.
Qed.

End BestScoreLeast.

Lemma getBestScore_least_witness :
  exists best,
    @DisjunctionStep.getBestScore Example.types (fun solution => solution)
      Nat.ltb [5; 3; 8] = Ret (Some best)
    /\ In best (map (fun solution => solution) [5; 3; 8])
    /\ forall solution, In solution [5; 3; 8] ->
                        Nat.ltb solution best = false.
Proof.
  destruct (@getBestScore_least Example.types (fun solution => solution)
              Nat.ltb Nat.ltb_irrefl) with (solutions := [5; 3; 8])
    as [_ Hsome].
  - intros a b c Hab Hbc. apply Nat.ltb_lt. apply Nat.ltb_lt in Hab, Hbc. lia.
  - apply Hsome. discriminate.
Defined.

(** ** [erase] and [restore] *)


Section EraseRestore.
Context `{SolverExternals}.


End EraseRestore.


(** ** The lifetime of a disjunction step *)

Section DisjunctionLifetime.
Context `{SolverExternals}.

(** X21: a disjunction step destroyed before it attempts a choice gives the
    inactive list back as it found it and leaves the disjunction in the
    constraint graph.  It enables every choice it pruned, also one that
    was already disabled when the step was constructed; the disabled
    bit of every other constraint is as before.  The count of
    disjunctions stays one higher. *)
Theorem DisjunctionStep_create_destroy (disjunction : Constraint)
    (solutions : SolutionsRef) (w : World) :
  getKind (constraintInfo disjunction) = Disjunction_kind ->
  getNestedConstraints (constraintInfo disjunction) <> [] ->
  NoDup (InactiveConstraints (cs w)) ->
  In disjunction (InactiveConstraints (cs w)) ->
  exists self w1 w2,
    DisjunctionStep.create disjunction solutions w = Ret (self, w1)
    /\ DisjunctionStep.destroy self w1 = Ret (tt, w2)
    /\ InactiveConstraints (cs w2) = InactiveConstraints (cs w)
    /\ (forall c, mem c (CG (cs w2))
                  = Nat.eqb c disjunction || mem c (CG (cs w)))
    /\ (forall c, isDisabled c (cs w2)
                  = isDisabled c (cs w)
                    && negb (mem c (DisjunctionStep.pruned disjunction (cs w))))
    /\ NumDisjunctions (cs w2) = S (NumDisjunctions (cs w))
    /\ TypeVariables (cs w2) = TypeVariables (cs w)
    /\ resolvedOverloadSets (cs w2) = resolvedOverloadSets (cs w).
Proof.
  intros Hkind Hnested Hnodup Hin.
  eexists _, _, _. split.
  { unfold DisjunctionStep.create, bind, SolverStep.erase, bind, perform,
      getCS, ret, assert.
    simpl. rewrite Hkind. simpl. unfold ret.
    rewrite pruneOverloadSet_run by assumption.
    unfold assign. simpl. reflexivity. }
  split; [apply destroy_run|].
  simpl. unfold DisjunctionStep.afterReset. simpl.
  split; [apply ilist_insert_erase; assumption|].
  split.
  { intros c. rewrite mem_remove_all.
    destruct (Nat.eqb c disjunction); simpl;
      [reflexivity | apply andb_true_r]. }
  split; [|repeat split].
  intros c. unfold isDisabled. simpl.
  rewrite mem_enable_all, mem_app, mem_rev.
  change (DisjunctionStep.pruned disjunction
            (with_InactiveConstraints
               (fst (ilist_erase disjunction (InactiveConstraints (cs w))))
               (with_CG (remove_all disjunction (CG (cs w))) (cs w))))
    with (DisjunctionStep.pruned disjunction (cs w)).
  destruct (mem c (DisjunctionStep.pruned disjunction (cs w)));
    simpl; [rewrite andb_false_r | rewrite andb_true_r]; reflexivity.
Qed.

(** X22: pruning only ever disables nested constraints of the disjunction
    whose choice is a declaration.  When it disables any, it narrows the
    declarations to one: a nested declaration choice is disabled exactly
    when it names another declaration than that one. *)
Theorem pruneOverloadSet_narrows (disjunction : Constraint)
    (solutions : SolutionsRef) (w : World) :
  getKind (constraintInfo disjunction) = Disjunction_kind ->
  getNestedConstraints (constraintInfo disjunction) <> [] ->
  exists self w',
    DisjunctionStep.create disjunction solutions w = Ret (self, w')
    /\ (forall c,
          In c (DisjunctionStep.DisabledChoices self) ->
          In c (getNestedConstraints (constraintInfo disjunction))
          /\ isDecl (getOverloadChoice (constraintInfo c)) = true)
    /\ (DisjunctionStep.DisabledChoices self <> [] ->
        exists kept,
          forall c d,
            In c (getNestedConstraints (constraintInfo disjunction)) ->
            getOverloadChoice (constraintInfo c) = DeclChoice d ->
            (In c (DisjunctionStep.DisabledChoices self) <-> d <> kept)).
Proof.
  intros Hkind Hnested.
  destruct (create_erases disjunction solutions w Hkind Hnested)
    as (self & w' & Hcreate & _ & _ & Hdisabled & _).
  exists self, w'. split; [exact Hcreate|]. rewrite Hdisabled. split.
  - intros c Hc. apply pruned_spec in Hc.
    destruct Hc as (choice & rest & typeVar & repr & item & kept & d
                    & _ & _ & _ & _ & _ & _ & Hin & Hd & _).
    split; [exact Hin | rewrite Hd; reflexivity].
  - intros Hsome.
    destruct (DisjunctionStep.pruned disjunction (cs w)) as [|c0 others] eqn:Hp;
      [contradiction|].
    assert (Hc0 : In c0 (DisjunctionStep.pruned disjunction (cs w)))
      by (rewrite Hp; left; reflexivity).
    apply pruned_spec in Hc0.
    destruct Hc0 as (choice & rest & typeVar & repr & item & kept & d0
                     & Hlist & Hfirst & Hrepr & Hne & Hentry & Hchoice & _).
    exists kept. intros c d Hin Hd. rewrite <- Hp, pruned_spec. split.
    + intros (choice' & rest' & typeVar' & repr' & item' & kept' & d'
              & Hlist' & Hfirst' & Hrepr' & _ & Hentry' & Hchoice' & _ & Hd'
              & Hne').
      rewrite Hlist in Hlist'. injection Hlist' as <- <-.
      rewrite Hfirst in Hfirst'. injection Hfirst' as <-.
      rewrite Hrepr in Hrepr'. injection Hrepr' as <-.
      rewrite Hentry in Hentry'. injection Hentry' as <-.
      rewrite Hchoice in Hchoice'. injection Hchoice' as <-.
      rewrite Hd in Hd'. injection Hd' as <-. exact Hne'.
    + intros Hdne.
      exists choice, rest, typeVar, repr, item, kept, d. auto 10.
Qed.

End DisjunctionLifetime.

Lemma DisjunctionStep_create_destroy_witness :
  exists self w1 w2,
    @DisjunctionStep.create Example.types Example.externals 100 0
      (Example.world [4; 100; 5] Example.resolvedTo7 false) = Ret (self, w1)
    /\ @DisjunctionStep.destroy Example.types Example.externals self w1
       = Ret (tt, w2)
    /\ InactiveConstraints (cs w2) = [4; 100; 5].
Proof.
  destruct (@DisjunctionStep_create_destroy Example.types Example.externals
              100 0 (Example.world [4; 100; 5] Example.resolvedTo7 false))
    as (self & w1 & w2 & Hcreate & Hdestroy & Hlist & _).
  - reflexivity.
  - simpl. discriminate.
  - repeat constructor; simpl; intuition discriminate.
  - simpl. auto.
  - exists self, w1, w2. auto.
Defined.

Lemma pruneOverloadSet_narrows_witness :
  exists self w',
    @DisjunctionStep.create Example.types Example.externals 100 0
      (Example.world [4; 100; 5] Example.resolvedTo7 false) = Ret (self, w')
    /\ forall c,
         In c (DisjunctionStep.DisabledChoices self) ->
         In c (getNestedConstraints (Example.info 100))
         /\ isDecl (getOverloadChoice (Example.info c)) = true.
Proof.
  destruct (@pruneOverloadSet_narrows Example.types Example.externals
              100 0 (Example.world [4; 100; 5] Example.resolvedTo7 false))
    as (self & w' & Hcreate & Honly & _).
  - reflexivity.
  - simpl. discriminate.
  - exists self, w'. auto.
Defined.
